(** * The cloud datastore adapter of luci/gae (impl/cloud/datastore.go)

    A shallow embedding of the bound adapter: the key codec, the property
    codec, the error normaliser, the batch sequencer, the transaction retry
    loop, the query loop and the property load/saver, with the properties the
    specification states about them. *)

From Stdlib Require Import ZArith String Ascii List Lia.
From stdpp Require Import base option list gmap strings fin_maps.

Local Open Scope Z_scope.
Local Open Scope string_scope.
Local Open Scope list_scope.

(** ** Keys *)

(** ds.KeyTok, with the three fields datastore.go reads and writes. *)
Record KeyTok := mkKeyTok {
  Kind : string;
  IntID : Z;
  StringID : string
}.

(** Modelled from the spec: ds.Key (service/datastore/key.go is not among the
    sources): an ordered root-to-leaf sequence of tokens scoped by an
    application id and a namespace. Keys are immutable values. *)
Record Key := mkKey {
  k_appID : string;
  k_namespace : string;
  k_toks : list KeyTok
}.

(** Modelled from the spec: Key.Split returns the application id, the
    namespace and the ordered tokens. *)
Definition Split (k : Key) : string * string * list KeyTok :=
  (k_appID k, k_namespace k, k_toks k).

(** Modelled from the spec: ds.NewKeyToks builds a key from an application
    id, a namespace and a token sequence (keys are immutable values, so the
    token buffer that nativeKeysToGAE reuses is copied). *)
Definition NewKeyToks (appID ns : string) (toks : list KeyTok) : Key :=
  mkKey appID ns toks.

(** A token is complete when it carries a string or an integer identifier. *)
Definition tokComplete (t : KeyTok) : bool :=
  negb (String.eqb (StringID t) "" && Z.eqb (IntID t) 0).

(** Every token has a kind and a string or integer identifier. *)
Definition tokFull (t : KeyTok) : bool :=
  negb (String.eqb (Kind t) "") && tokComplete t.

Definition completeKey (k : Key) : bool := forallb tokFull (k_toks k).

(** The spec's notion: a key is incomplete when its leaf token has neither
    identifier. *)
Definition leafComplete (k : Key) : bool :=
  match last (k_toks k) with
  | Some t => tokComplete t
  | None => false
  end.

(** The backend's key (google.golang.org/cloud/datastore.Key): kind, name,
    id, parent pointer and namespace. A nil pointer is [None] at the use. *)
#[warnings="-register-all"]
Inductive NativeKey := mkNativeKey {
  nk_kind : string;
  nk_name : string;
  nk_id : Z;
  nk_parent : option NativeKey;
  nk_namespace : string
}.

(** datastore.NewKey(ctx, kind, name, id, parent): the namespace is the one
    bound in the context. *)
Definition NewKey (ctxNamespace kind name : string) (id : Z)
    (parent : option NativeKey) : NativeKey :=
  mkNativeKey kind name id parent ctxNamespace.

(** Key.Incomplete of the backend key. *)
Definition Incomplete (k : NativeKey) : bool :=
  String.eqb (nk_name k) "" && Z.eqb (nk_id k) 0.

(** A backend transaction handle: an opaque reference, here a number. *)
Definition Transaction := nat.

(** The part of boundDatastore the adapter reads: the namespace bound in the
    embedded Context (empty when none is set), the application id and the
    transaction handle, nil ([None]) outside a transaction. *)
Record boundDatastore := mkBDS {
  ctxNamespace : string;
  appID : string;
  transaction : option Transaction
}.

(** One round of the loop of gaeKeysToNative: the native key of a token,
    under the native key built so far. *)
Definition nativeChild (bds : boundDatastore) (nativeKey : option NativeKey)
    (tok : KeyTok) : option NativeKey :=
  Some (NewKey (ctxNamespace bds) (Kind tok) (StringID tok) (IntID tok) nativeKey).

(** gaeKeysToNative, for one key: the loop over the tokens, ancestor first,
    starting from a nil native key. *)
Definition gaeKeyToNative (bds : boundDatastore) (key : Key) : option NativeKey :=
  let '(_, _, toks) := Split key in
  fold_left (nativeChild bds) toks None.

Definition gaeKeysToNative (bds : boundDatastore) (keys : list Key)
    : list (option NativeKey) :=
  map (gaeKeyToNative bds) keys.

(** The inner loop of nativeKeysToGAE: append a token, move to the parent,
    stop at the root. *)
Fixpoint collectToks (cur : NativeKey) : list KeyTok :=
  mkKeyTok (nk_kind cur) (nk_id cur) (nk_name cur) ::
  match nk_parent cur with
  | Some p => collectToks p
  | None => []
  end.

(** toks[i], toks[ri] = toks[ri], toks[i] *)
Definition swap {A} (l : list A) (i ri : nat) : list A :=
  match l !! i, l !! ri with
  | Some x, Some y => <[ri := x]> (<[i := y]> l)
  | _, _ => l
  end.

(** for i := 0; i < len(toks)/2; i++ { ri := len(toks) - i - 1; swap } *)
Definition reverseInPlace {A} (toks : list A) : list A :=
  fold_left (fun l i => swap l i (length l - i - 1))
            (seq 0 (length toks / 2)) toks.

(** The list after the first k rounds of the reversal loop. *)
Definition rounds {A} (k : nat) (l : list A) : list A :=
  fold_left (fun l i => swap l i (length l - i - 1)) (seq 0 k) l.

(** nativeKeysToGAE, for one key. [None] is the nil-pointer fault of
    cur.Kind() on a nil native key. *)
Definition nativeKeyToGAE (bds : boundDatastore) (nativeKey : option NativeKey)
    : option Key :=
  match nativeKey with
  | None => None
  | Some nk =>
      let toks := reverseInPlace (collectToks nk) in
      Some (NewKeyToks (appID bds) (nk_namespace nk) toks)
  end.

(** nativeKeysToGAE: faults as soon as one key does. *)
Definition nativeKeysToGAE (bds : boundDatastore) (nativeKeys : list (option NativeKey))
    : option (list Key) :=
  mapM (nativeKeyToGAE bds) nativeKeys.


(** The tokens on the parent chain of a backend key pointer, leaf first. *)
Definition chainOf (k : option NativeKey) : list KeyTok :=
  match k with
  | Some nk => collectToks nk
  | None => []
  end.

(** A key with the tokens of k, in the scope of the bound datastore. *)
Definition rescope (bds : boundDatastore) (k : Key) : Key :=
  NewKeyToks (appID bds) (ctxNamespace bds) (k_toks k).

(** The key belongs to the scope of the bound datastore. *)
Definition inScope (bds : boundDatastore) (k : Key) : Prop :=
  k_appID k = appID bds ∧ k_namespace k = ctxNamespace bds.

(** ** Errors *)

Inductive PropertyType :=
  PTNull | PTInt | PTTime | PTBool | PTBytes | PTString | PTFloat
| PTGeoPoint | PTKey | PTBlobKey.

(** The concrete Go type of an aggregate error: the backend's
    datastore.MultiError or luci-go's errors.MultiError; both are []error. *)
Inductive MultiErrorType := NativeMultiError | ErrorsMultiError.

(** Go error values. The first four are the backend's sentinels
    (datastore.ErrNoSuchEntity, ...), the next four those of the abstract
    service (ds.ErrNoSuchEntity, ..., ds.Stop). [ErrorsNew] is errors.New,
    the two [ErrUnsupported...] are the fmt.Errorf calls of the property codec
    with their arguments, [BackendError] is any other backend error. A nil
    error is [None] in [option Error]. *)
#[warnings="-register-all"]
Inductive Error :=
| NativeErrNoSuchEntity
| NativeErrConcurrentTransaction
| NativeErrInvalidKey
| NativeDone
| ErrNoSuchEntity
| ErrConcurrentTransaction
| ErrInvalidKey
| Stop
| ErrorsNew (msg : string)
| ErrUnsupportedPropertyType (i : nat) (pt : PropertyType)
| ErrUnsupportedValueType (i : nat) (goType : string)
| MultiError (ty : MultiErrorType) (errs : list (option Error))
| BackendError (code : nat).

Definition error := option Error.

(** normalizeError *)
Definition normalizeError (err : error) : error :=
  match err with
  | Some NativeErrNoSuchEntity => Some ErrNoSuchEntity
  | Some NativeErrConcurrentTransaction => Some ErrConcurrentTransaction
  | Some NativeErrInvalidKey => Some ErrInvalidKey
  | _ => err
  end.

(** errors.Fix of luci-go: an error whose type is shaped like []error is
    converted to errors.MultiError; any other error is returned as it is. *)
Definition Fix (err : error) : error :=
  match err with
  | Some (MultiError _ errs) => Some (MultiError ErrorsMultiError errs)
  | _ => err
  end.

(** err == ds.ErrConcurrentTransaction, err == datastore.Done, err == ds.Stop *)
Definition isErrConcurrentTransaction (err : error) : bool :=
  match err with Some ErrConcurrentTransaction => true | _ => false end.

Definition isDone (err : Error) : bool :=
  match err with NativeDone => true | _ => false end.

Definition isStop (err : Error) : bool :=
  match err with Stop => true | _ => false end.

(** The result of a pure function that may return an error or stop on a
    run-time fault (nil dereference, index out of range). *)
Inductive Result (A : Type) :=
| Ok (a : A)
| Err (e : Error)
| Fault.
Arguments Ok {A} a.
Arguments Err {A} e.
Arguments Fault {A}.

(** ** Properties *)

Inductive Location := LocUTC | LocLocal | LocFixed (offsetSeconds : Z).

(** time.Time: an instant and the location it is presented in. *)
Record Time := mkTime { instant : Z; location : Location }.

(** Time.UTC: the same instant, with the location set to UTC. *)
Definition UTC (t : Time) : Time := mkTime (instant t) LocUTC.

Inductive IndexSetting := ShouldIndex | NoIndex.

(** Modelled from the spec: the value of a ds.Property
    (service/datastore/properties.go is not among the sources), a tagged value
    of exactly one of the listed kinds. int64 is Z, float64 its bit pattern. *)
Inductive PropertyValue :=
| VNull
| VInt (i : Z)
| VTime (t : Time)
| VBool (b : bool)
| VBytes (b : list Byte.byte)
| VString (s : string)
| VFloat (bits : Z)
| VGeoPoint (lat lng : Z)
| VKey (k : Key)
| VBlobKey (s : string).

(** Modelled from the spec: ds.Property, a tagged value paired with an
    index-setting flag. *)
Record Property := mkProperty {
  propValue : PropertyValue;
  propIndexSetting : IndexSetting
}.

(** Modelled from the spec: Property.Type, the tag of the value. *)
Definition propType (p : Property) : PropertyType :=
  match propValue p with
  | VNull => PTNull
  | VInt _ => PTInt
  | VTime _ => PTTime
  | VBool _ => PTBool
  | VBytes _ => PTBytes
  | VString _ => PTString
  | VFloat _ => PTFloat
  | VGeoPoint _ _ => PTGeoPoint
  | VKey _ => PTKey
  | VBlobKey _ => PTBlobKey
  end.

(** Modelled from the spec: Property.SetValue stores the value and the index
    setting. *)
Definition SetValue (v : PropertyValue) (iset : IndexSetting) : Property :=
  mkProperty v iset.

(** The dynamic values an interface{} holds on the backend side: nil, the
    primitive Go types, a backend key pointer (possibly nil), a slice
    []interface{}, or a value of any other Go type, named by its type. *)
#[warnings="-register-all"]
Inductive NativeValue :=
| NNil
| NInt64 (i : Z)
| NBool (b : bool)
| NString (s : string)
| NFloat64 (bits : Z)
| NBytes (b : list Byte.byte)
| NTime (t : Time)
| NKey (k : option NativeKey)
| NSlice (vs : list NativeValue)
| NOther (goType : string).

(** datastore.Property of the backend. *)
Record NativeProperty := mkNativeProperty {
  np_Name : string;
  np_Value : NativeValue;
  np_NoIndex : bool
}.

(** The loop of gaePropertyToNative over props, from index i on: the
    primitive types pass prop.Value() through, a key goes through
    gaeKeysToNative, any other type is an error at its index. *)
Fixpoint encodeValues (bds : boundDatastore) (i : nat) (props : list Property)
    : Error + list NativeValue :=
  match props with
  | [] => inr []
  | prop :: rest =>
      let continue (nv : NativeValue) :=
        match encodeValues bds (S i) rest with
        | inr nvs => inr (nv :: nvs)
        | inl err => inl err
        end in
      match propValue prop with
      | VNull => continue NNil
      | VInt n => continue (NInt64 n)
      | VTime t => continue (NTime t)
      | VBool b => continue (NBool b)
      | VBytes b => continue (NBytes b)
      | VString s => continue (NString s)
      | VFloat f => continue (NFloat64 f)
      | VKey k => continue (NKey (gaeKeyToNative bds k))
      | VGeoPoint _ _ | VBlobKey _ =>
          inl (ErrUnsupportedPropertyType i (propType prop))
      end
  end.

(** gaePropertyToNative, with its named results (nativeProp, err): on an
    error nativeProp has only its name set. *)
Definition gaePropertyToNative (bds : boundDatastore) (name : string)
    (props : list Property) : NativeProperty * error :=
  match encodeValues bds 0 props with
  | inl err => (mkNativeProperty name NNil false, Some err)
  | inr nativeValues =>
      match nativeValues, props with
      | [nv], p0 :: _ =>
          (mkNativeProperty name nv
             (match propIndexSetting p0 with ShouldIndex => false | NoIndex => true end),
           None)
      | _, _ =>
          (* We must always index list values. *)
          (mkNativeProperty name (NSlice nativeValues) false, None)
      end
  end.

(** The %T of a value the decoder does not support. *)
Definition goTypeName (nv : NativeValue) : string :=
  match nv with
  | NNil => "<nil>"
  | NSlice _ => "[]interface {}"
  | NOther ty => ty
  | NInt64 _ => "int64"
  | NBool _ => "bool"
  | NString _ => "string"
  | NFloat64 _ => "float64"
  | NBytes _ => "[]uint8"
  | NTime _ => "time.Time"
  | NKey _ => "*datastore.Key"
  end.

(** The loop of nativePropertyToGAE over the native values, from index i on. *)
Fixpoint decodeValues (bds : boundDatastore) (noIndex : bool) (i : nat)
    (nativeValues : list NativeValue) : Result (list Property) :=
  match nativeValues with
  | [] => Ok []
  | nv :: rest =>
      let indexSetting := if noIndex then NoIndex else ShouldIndex in
      let continue (v : PropertyValue) :=
        match decodeValues bds noIndex (S i) rest with
        | Ok ps => Ok (SetValue v indexSetting :: ps)
        | Err e => Err e
        | Fault => Fault
        end in
      match nv with
      | NInt64 n => continue (VInt n)
      | NBool b => continue (VBool b)
      | NString s => continue (VString s)
      | NFloat64 f => continue (VFloat f)
      | NBytes b => continue (VBytes b)
      | NTime t => continue (VTime (UTC t))
      | NKey nk =>
          match nativeKeyToGAE bds nk with
          | Some k => continue (VKey k)
          | None => Fault
          end
      | NNil | NSlice _ | NOther _ => Err (ErrUnsupportedValueType i (goTypeName nv))
      end
  end.

(** nativePropertyToGAE. The name is returned in every case; the values are
    returned on success (on an error the partly filled slice is dropped, as
    Load, its caller, does). A []interface{} value is a list of values, any
    other value (a []byte too) stands alone. *)
Definition nativePropertyToGAE (bds : boundDatastore) (nativeProp : NativeProperty)
    : string * Result (list Property) :=
  let nativeValues :=
    match np_Value nativeProp with
    | NSlice vs => vs
    | v => [v]
    end in
  (np_Name nativeProp, decodeValues bds (np_NoIndex nativeProp) 0 nativeValues).

Definition isSlice (nv : NativeValue) : bool :=
  match nv with NSlice _ => true | _ => false end.

(** The supported types of the encoder, as the specification lists them. *)
Definition supportedType (pt : PropertyType) : bool :=
  match pt with
  | PTNull | PTInt | PTTime | PTBool | PTBytes | PTString | PTFloat | PTKey => true
  | PTGeoPoint | PTBlobKey => false
  end.

(** A property with its timestamp, if it is one, normalised to UTC. *)
Definition normalizeUTC (p : Property) : Property :=
  match propValue p with
  | VTime t => mkProperty (VTime (UTC t)) (propIndexSetting p)
  | _ => p
  end.

(** The values the decoder accepts back: the supported types without null,
    a key having at least one token. *)
Definition decodable (p : Property) : Prop :=
  match propValue p with
  | VNull | VGeoPoint _ _ | VBlobKey _ => False
  | VKey k => k_toks k ≠ []
  | _ => True
  end.

(** What the decoder makes of an encoded value: a timestamp in UTC, a key
    in the adapter's scope, and the index setting of the native property. *)
Definition decoded (bds : boundDatastore) (noIndex : bool) (p : Property) : Property :=
  mkProperty
    (match propValue p with
     | VTime t => VTime (UTC t)
     | VKey k => VKey (rescope bds k)
     | v => v
     end)
    (if noIndex then NoIndex else ShouldIndex).

(** The values that survive the round trip: decodable, a key being in the
    adapter's scope. *)
Definition roundTrips (bds : boundDatastore) (p : Property) : Prop :=
  decodable p ∧
  match propValue p with
  | VKey k => inScope bds k
  | _ => True
  end.

(** ** The property load/saver *)

(** ds.PropertyMap is a Go map from property names to value lists; [None] is
    the nil map. *)
Abbreviation PropertyMap := (option (gmap string (list Property))).

Record nativePropertyLoadSaver := mkLoadSaver {
  npls_bds : boundDatastore;
  pmap : PropertyMap
}.

(** clonePropertyMap: nil stays nil, every list is copied onto a nil slice. *)
Definition clonePropertyMap (pm : PropertyMap) : PropertyMap :=
  match pm with
  | None => None
  | Some m => Some ((fun props => [] ++ props) <$> m)
  end.

Definition mkNPLS (bds : boundDatastore) (base : PropertyMap) : nativePropertyLoadSaver :=
  mkLoadSaver bds (clonePropertyMap base).

(** The loop of Load: npls.pmap[name] = append(npls.pmap[name], props...).
    The map reached so far is returned with the first error or fault. *)
Fixpoint loadProps (bds : boundDatastore) (m : gmap string (list Property))
    (props : list NativeProperty) : gmap string (list Property) * Result unit :=
  match props with
  | [] => (m, Ok tt)
  | nativeProp :: rest =>
      match nativePropertyToGAE bds nativeProp with
      | (name, Ok ps) =>
          loadProps bds (<[name := default [] (m !! name) ++ ps]> m) rest
      | (_, Err e) => (m, Err e)
      | (_, Fault) => (m, Fault)
      end
  end.

(** Load: allocates the map when it is nil, then loads every property. It
    mutates its receiver, so the new receiver is returned too. *)
Definition Load (npls : nativePropertyLoadSaver) (props : list NativeProperty)
    : nativePropertyLoadSaver * Result unit :=
  let m := match pmap npls with None => ∅ | Some m => m end in
  let (m', r) := loadProps (npls_bds npls) m props in
  (mkLoadSaver (npls_bds npls) (Some m'), r).

(** strings.HasPrefix(name, "$"): the entry is a meta entry. *)
Definition isMeta (name : string) : bool := String.prefix "$" name.

(** The loop of Save over the map entries, in the order the range statement
    visits them: meta entries (name starting with a dollar sign) are skipped,
    the first encoding error returns (nil, err). *)
Fixpoint saveEntries (bds : boundDatastore) (props : list NativeProperty)
    (entries : list (string * list Property)) : list NativeProperty * error :=
  match entries with
  | [] => (props, None)
  | (name, plist) :: rest =>
      if isMeta name then saveEntries bds props rest
      else
        match gaePropertyToNative bds name plist with
        | (_, Some err) => ([], Some err)
        | (nativeProp, None) => saveEntries bds (props ++ [nativeProp]) rest
        end
  end.

(** Go ranges over a map in an unspecified order, visiting every entry once:
    [order] is such an enumeration of the map. *)
Definition rangeOrder (m : gmap string (list Property))
    (order : list (string * list Property)) : Prop :=
  order ≡ₚ map_to_list m.

(** Save, given the order in which the range statement visits the map. *)
Definition Save (npls : nativePropertyLoadSaver)
    (order : list (string * list Property)) : list NativeProperty * error :=
  match pmap npls with
  | None => ([], None)
  | Some m =>
      if Nat.eqb (size m) 0 then ([], None)
      else saveEntries (npls_bds npls) [] order
  end.

(** The native properties of the entries that are not meta entries, in the
    order given. *)
Definition encodedEntries (bds : boundDatastore)
    (order : list (string * list Property)) : list NativeProperty :=
  map (fun e => (gaePropertyToNative bds e.1 e.2).1)
      (filter (fun e => isMeta e.1 = false) order).

(** ** Queries *)

(** Modelled from the spec: ds.FinalizedQuery, the query descriptor
    (service/datastore/query.go is not among the sources): equality filters,
    at most one inequality-filtered field with a low and a high bound,
    cursor bounds, flags, limit, offset, projection, ancestor and orders. *)
Record FinalizedQuery := mkFinalizedQuery {
  fq_Kind : string;
  fq_EqFilters : list (string * list Property);
  fq_IneqFilterProp : string;
  fq_IneqFilterLow : string * string * Property;
  fq_IneqFilterHigh : string * string * Property;
  fq_Bounds : option string * option string;
  fq_Distinct : bool;
  fq_KeysOnly : bool;
  fq_Limit : option Z;
  fq_Offset : option Z;
  fq_Project : option (list string);
  fq_Ancestor : option Key;
  fq_EventuallyConsistent : bool;
  fq_Orders : list (string * bool)
}.

(** The backend's query, as the builder calls of prepareNativeQuery leave
    it. A filter value is the encoded native value, or the raw property
    value when the encoding failed. *)
Record NativeQuery := mkNativeQuery {
  nq_kind : string;
  nq_transaction : option Transaction;
  nq_filters : list (string * (NativeValue + PropertyValue));
  nq_start : option string;
  nq_end : option string;
  nq_distinct : bool;
  nq_keysOnly : bool;
  nq_limit : option Z;
  nq_offset : option Z;
  nq_projection : list string;
  nq_ancestor : option NativeKey;
  nq_eventual : bool;
  nq_order : list string
}.

(** nativeFilter of prepareNativeQuery *)
Definition nativeFilter (bds : boundDatastore) (prop : Property)
    : NativeValue + PropertyValue :=
  match gaePropertyToNative bds "" [prop] with
  | (np, None) => inl (np_Value np)
  | (_, Some _) => inr (propValue prop)
  end.

Definition ineqFilter (bds : boundDatastore) (f : string * string * Property)
    : list (string * (NativeValue + PropertyValue)) :=
  let '(field, op, prop) := f in
  if String.eqb field "" then []
  else [((field ++ " " ++ op)%string, nativeFilter bds prop)].

(** prepareNativeQuery *)
Definition prepareNativeQuery (bds : boundDatastore) (fq : FinalizedQuery) : NativeQuery :=
  mkNativeQuery
    (fq_Kind fq)
    (transaction bds)
    (flat_map (fun '(field, props) =>
                 map (fun prop => ((field ++ " =")%string, nativeFilter bds prop)) props)
              (fq_EqFilters fq)
     ++ (if String.eqb (fq_IneqFilterProp fq) "" then []
         else ineqFilter bds (fq_IneqFilterLow fq) ++ ineqFilter bds (fq_IneqFilterHigh fq)))
    (fst (fq_Bounds fq))
    (snd (fq_Bounds fq))
    (fq_Distinct fq)
    (fq_KeysOnly fq)
    (fq_Limit fq)
    (fq_Offset fq)
    (match fq_Project fq with Some proj => proj | None => [] end)
    (match fq_Ancestor fq with Some a => gaeKeyToNative bds a | None => None end)
    (fq_EventuallyConsistent fq)
    (map (fun '(prop, descending) => if descending : bool then ("-" ++ prop)%string else prop)
         (fq_Orders fq)).

(** What the backend's iterator still has to deliver: entities (key and
    stored properties) and errors, in order; when nothing is left, Next
    reports datastore.Done. The result stream of a query is finite. *)
Inductive IterItem :=
| ItEntity (key : option NativeKey) (props : list NativeProperty)
| ItError (e : Error).

Definition Iterator := list IterItem.

(** ** The adapter's interactions *)

(** What the adapter does to the outside, in the order it does it: calls of
    the backend client or transaction, and invocations of the caller's
    callbacks with their arguments. *)
Inductive Event :=
| CallRunInTransaction
| CallAllocateIDs (keys : list NativeKey)
| CallGetMulti (tx : option Transaction) (keys : list (option NativeKey))
| CallPutMulti (tx : option Transaction) (keys : list (option NativeKey))
    (src : list nativePropertyLoadSaver)
| CallDeleteMulti (tx : option Transaction) (keys : list (option NativeKey))
| CallRun (q : NativeQuery)
| CallNext
| CbNewKey (key : option Key) (err : error)
| CbGetMulti (pm : PropertyMap) (err : error)
| CbDeleteMulti (err : error)
| CbRawRun (key : Key) (pm : PropertyMap).

(** The context handed to the transaction body. *)
Record Context := mkContext {
  ctx_namespace : string;
  ctx_transaction : option Transaction
}.

(** withDatastoreTransaction and datastoreTransaction *)
Definition withDatastoreTransaction (bds : boundDatastore) (tx : Transaction) : Context :=
  mkContext (ctxNamespace bds) (Some tx).

Definition datastoreTransaction (c : Context) : option Transaction :=
  ctx_transaction c.

(** ds.TransactionOptions *)
Record TransactionOptions := mkTransactionOptions {
  XG : bool;
  Attempts : Z
}.

(** The backend client and its transactions, over a state W of everything
    outside the adapter (the stored entities, the caller's variables). Each
    call takes the state and returns its results and the new state.
    GetMulti answers with the properties it loads into each destination
    (none for an index it does not load) and its error. *)
Record Client (W : Type) := mkClient {
  client_AllocateIDs : list NativeKey -> W -> (list (option NativeKey) * error) * W;
  client_RunInTransaction : (Transaction -> W -> error * W) -> W -> error * W;
  client_Run : NativeQuery -> W -> Iterator * W;
  client_GetMulti : list (option NativeKey) -> W ->
                    (list (option (list NativeProperty)) * error) * W;
  client_PutMulti : list (option NativeKey) -> list nativePropertyLoadSaver -> W ->
                    (list (option NativeKey) * error) * W;
  client_DeleteMulti : list (option NativeKey) -> W -> error * W;
  tx_GetMulti : Transaction -> list (option NativeKey) -> W ->
                (list (option (list NativeProperty)) * error) * W;
  tx_PutMulti : Transaction -> list (option NativeKey) -> list nativePropertyLoadSaver ->
                W -> error * W;
  tx_DeleteMulti : Transaction -> list (option NativeKey) -> W -> error * W
}.
Arguments client_AllocateIDs {W} _.
Arguments client_RunInTransaction {W} _.
Arguments client_Run {W} _.
Arguments client_GetMulti {W} _.
Arguments client_PutMulti {W} _.
Arguments client_DeleteMulti {W} _.
Arguments tx_GetMulti {W} _.
Arguments tx_PutMulti {W} _.
Arguments tx_DeleteMulti {W} _.

(** The state an adapter operation runs in: the outside state and the
    interactions so far. *)
Record State (W : Type) := mkState {
  world : W;
  trace : list Event
}.
Arguments mkState {W} _ _.
Arguments world {W} _.
Arguments trace {W} _.

(** An operation returns a value, or stops on a run-time fault (a Go panic);
    both keep the state reached. *)
Inductive Outcome (W A : Type) :=
| Returns (a : A) (s : State W)
| Panics (s : State W).
Arguments Returns {W A} a s.
Arguments Panics {W A} s.

Definition M (W A : Type) : Type := State W -> Outcome W A.

Definition ret {W A} (a : A) : M W A := fun s => Returns a s.

Definition bind {W A B} (m : M W A) (k : A -> M W B) : M W B :=
  fun s =>
    match m s with
    | Returns a s' => k a s'
    | Panics s' => Panics s'
    end.

Definition panic {W A} : M W A := fun s => Panics s.

(** Record an interaction. *)
Definition emit {W} (ev : Event) : M W unit :=
  fun s => Returns tt (mkState (world s) (trace s ++ [ev])).

(** Run a step of the outside. *)
Definition outside {W A} (f : W -> A * W) : M W A :=
  fun s => let (a, w) := f (world s) in Returns a (mkState w (trace s)).

Notation "x <- c1 ;; c2" := (bind c1 (fun x => c2))
  (at level 100, c1 at next level, right associativity).
Notation "c1 ;;; c2" := (bind c1 (fun _ => c2))
  (at level 100, right associativity).

(** ** The bound adapter *)

Section Adapter.

Context {W : Type} (client : Client W).

(** The retry loop of RunInTransaction, with n attempts left. The body fn
    is a step of the outside that receives the transaction's context. *)
Fixpoint attemptLoop (bds : boundDatastore) (fn : Context -> W -> error * W)
    (n : nat) : M W error :=
  match n with
  | O => ret (Some ErrConcurrentTransaction)
  | S n' =>
      emit CallRunInTransaction ;;;
      err <- outside (client_RunInTransaction client
                        (fun tx => fn (withDatastoreTransaction bds tx))) ;;
      let err := normalizeError err in
      if isErrConcurrentTransaction err then attemptLoop bds fn n' else ret err
  end.

(** RunInTransaction; opts is a pointer, [None] when nil. *)
Definition RunInTransaction (bds : boundDatastore) (fn : Context -> W -> error * W)
    (opts : option TransactionOptions) : M W error :=
  match transaction bds with
  | Some _ => ret (Some (ErrorsNew "nested transactions are not supported"))
  | None =>
      if match opts with Some o => XG o | None => false end
      then ret (Some (ErrorsNew "cross-group transactions are not supported"))
      else
        let attempts :=
          match opts with
          | Some o => if (0 <? Attempts o)%Z then Attempts o else 3
          | None => 3
          end in
        attemptLoop bds fn (Z.to_nat attempts)
  end.

(** idxCallbacker, success branch: for i := 0; i < amt; i++, here from
    index i with n indices left. *)
Fixpoint forEachIndex (cb : nat -> error -> M W error) (i n : nat) : M W error :=
  match n with
  | O => ret None
  | S n' =>
      err <- cb i None ;;
      match err with
      | Some e => ret (Some e)
      | None => forEachIndex cb (S i) n'
      end
  end.

(** idxCallbacker, aggregate branch: for i, err := range me. *)
Fixpoint forEachError (cb : nat -> error -> M W error) (i : nat) (me : list error)
    : M W error :=
  match me with
  | [] => ret None
  | err :: rest =>
      r <- cb i (normalizeError err) ;;
      match r with
      | Some e => ret (Some e)
      | None => forEachError cb (S i) rest
      end
  end.

(** idxCallbacker *)
Definition idxCallbacker (err : error) (amt : nat) (cb : nat -> error -> M W error)
    : M W error :=
  match err with
  | None => forEachIndex cb 0 amt
  | Some _ =>
      match Fix err with
      | Some (MultiError ErrorsMultiError me) => forEachError cb 0 me
      | err' => ret (normalizeError err')
      end
  end.

(** What the backend's GetMulti does to its destinations: dst[i].Load(props)
    for the indices it loads. [None] when a Load faults. *)
Fixpoint applyLoads (nativePLS : list nativePropertyLoadSaver)
    (loads : list (option (list NativeProperty))) : option (list nativePropertyLoadSaver) :=
  match nativePLS, loads with
  | npls :: rest, Some props :: loads' =>
      match Load npls props with
      | (_, Fault) => None
      | (npls', _) => cons npls' <$> applyLoads rest loads'
      end
  | npls :: rest, None :: loads' => cons npls <$> applyLoads rest loads'
  | _, _ => Some nativePLS
  end.

(** The backend call of GetMulti: the transaction's when one is bound,
    else the client's. *)
Definition getMultiCall (bds : boundDatastore) (nativeKeys : list (option NativeKey))
    : W -> (list (option (list NativeProperty)) * error) * W :=
  match transaction bds with
  | Some tx => tx_GetMulti client tx nativeKeys
  | None => client_GetMulti client nativeKeys
  end.

(** The per-index callback of GetMulti: cb(nativePLS[idx].pmap, err). *)
Definition getCallback (nativePLS : list nativePropertyLoadSaver)
    (cb : PropertyMap -> error -> W -> error * W) (idx : nat) (err : error)
    : M W error :=
  match nativePLS !! idx with
  | None => panic
  | Some npls =>
      emit (CbGetMulti (pmap npls) err) ;;;
      outside (cb (pmap npls) err)
  end.

(** GetMulti *)
Definition GetMulti (bds : boundDatastore) (keys : list Key)
    (cb : PropertyMap -> error -> W -> error * W) : M W error :=
  let nativeKeys := gaeKeysToNative bds keys in
  let nativePLS := map (fun _ => mkNPLS bds None) nativeKeys in
  emit (CallGetMulti (transaction bds) nativeKeys) ;;;
  r <- outside (getMultiCall bds nativeKeys) ;;
  let '(loads, err) := r in
  match applyLoads nativePLS loads with
  | None => panic
  | Some nativePLS => idxCallbacker err (length nativePLS) (getCallback nativePLS cb)
  end.

(** The first loop of the transactional PutMulti, from index i on: collect
    the incomplete keys and the map from their position among the incomplete
    keys to their index in nativeKeys. [None] is the fault of Incomplete on a
    nil key. *)
Fixpoint findIncomplete (i : nat) (nativeKeys : list (option NativeKey))
    (incompleteKeys : list NativeKey) (incompleteKeyMap : gmap nat nat)
    : option (list NativeKey * gmap nat nat) :=
  match nativeKeys with
  | [] => Some (incompleteKeys, incompleteKeyMap)
  | None :: _ => None
  | Some k :: rest =>
      if Incomplete k
      then findIncomplete (S i) rest (incompleteKeys ++ [k])
             (<[length incompleteKeys := i]> incompleteKeyMap)
      else findIncomplete (S i) rest incompleteKeys incompleteKeyMap
  end.

(** The second loop: nativeKeys[incompleteKeyMap[i]] = idKey, for the
    allocated keys from position i on. A missing map entry reads as 0;
    [None] is an index out of range. *)
Fixpoint substituteKeys (incompleteKeyMap : gmap nat nat) (i : nat)
    (idKeys : list (option NativeKey)) (nativeKeys : list (option NativeKey))
    : option (list (option NativeKey)) :=
  match idKeys with
  | [] => Some nativeKeys
  | idKey :: rest =>
      let idx := default 0%nat (incompleteKeyMap !! i) in
      if Nat.ltb idx (length nativeKeys)
      then substituteKeys incompleteKeyMap (S i) rest (<[idx := idKey]> nativeKeys)
      else None
  end.

(** The per-index callback of PutMulti. *)
Definition putCallback (bds : boundDatastore) (nativeKeys : list (option NativeKey))
    (cb : option Key -> error -> W -> error * W) (idx : nat) (err : error)
    : M W error :=
  match err with
  | None =>
      match nativeKeys !! idx with
      | None => panic
      | Some nativeKey =>
          match nativeKeyToGAE bds nativeKey with
          | None => panic
          | Some key => emit (CbNewKey (Some key) None) ;;; outside (cb (Some key) None)
          end
      end
  | Some _ => emit (CbNewKey None err) ;;; outside (cb None err)
  end.

(** PutMulti *)
Definition PutMulti (bds : boundDatastore) (keys : list Key) (vals : list PropertyMap)
    (cb : option Key -> error -> W -> error * W) : M W error :=
  let nativeKeys := gaeKeysToNative bds keys in
  let nativePLS := map (mkNPLS bds) vals in
  match transaction bds with
  | Some tx =>
      match findIncomplete 0 nativeKeys [] ∅ with
      | None => panic
      | Some (incompleteKeys, incompleteKeyMap) =>
          let write (nativeKeys : list (option NativeKey)) : M W error :=
            emit (CallPutMulti (Some tx) nativeKeys nativePLS) ;;;
            err <- outside (tx_PutMulti client tx nativeKeys nativePLS) ;;
            idxCallbacker err (length nativeKeys) (putCallback bds nativeKeys cb) in
          if Nat.ltb 0 (length incompleteKeys) then
            emit (CallAllocateIDs incompleteKeys) ;;;
            r <- outside (client_AllocateIDs client incompleteKeys) ;;
            let '(idKeys, err) := r in
            match err with
            | Some e => ret (Some e)
            | None =>
                match substituteKeys incompleteKeyMap 0 idKeys nativeKeys with
                | None => panic
                | Some nativeKeys => write nativeKeys
                end
            end
          else write nativeKeys
      end
  | None =>
      emit (CallPutMulti None nativeKeys nativePLS) ;;;
      r <- outside (client_PutMulti client nativeKeys nativePLS) ;;
      let '(nativeKeys, err) := r in
      idxCallbacker err (length nativeKeys) (putCallback bds nativeKeys cb)
  end.

(** The backend call of DeleteMulti. *)
Definition deleteMultiCall (bds : boundDatastore) (nativeKeys : list (option NativeKey))
    : W -> error * W :=
  match transaction bds with
  | Some tx => tx_DeleteMulti client tx nativeKeys
  | None => client_DeleteMulti client nativeKeys
  end.

(** The per-index callback of DeleteMulti: cb(err). *)
Definition deleteCallback (cb : error -> W -> error * W) (idx : nat) (err : error)
    : M W error :=
  emit (CbDeleteMulti err) ;;; outside (cb err).

(** DeleteMulti *)
Definition DeleteMulti (bds : boundDatastore) (keys : list Key)
    (cb : error -> W -> error * W) : M W error :=
  let nativeKeys := gaeKeysToNative bds keys in
  emit (CallDeleteMulti (transaction bds) nativeKeys) ;;;
  err <- outside (deleteMultiCall bds nativeKeys) ;;
  idxCallbacker err (length nativeKeys) (deleteCallback cb).

(** What the backend iterator's Next does with its destination: it loads
    the entity unless the query is keys-only. The destination is a pointer,
    [None] when nil; Load on a nil receiver faults. *)
Definition loadEntity (keysOnly : bool) (dst : option nativePropertyLoadSaver)
    (props : list NativeProperty) : option nativePropertyLoadSaver * Result unit :=
  if keysOnly then (dst, Ok tt)
  else
    match dst with
    | None => (None, Fault)
    | Some npls => let (npls', r) := Load npls props in (Some npls', r)
    end.

(** The loop of Run over what the iterator delivers. The callback receives
    the key and the property map (and a cursor function, left out here). *)
Fixpoint runLoop (bds : boundDatastore) (q : FinalizedQuery) (nq : NativeQuery)
    (cb : Key -> PropertyMap -> W -> error * W) (it : Iterator) : M W error :=
  let npls := if fq_KeysOnly q then None else Some (mkNPLS bds None) in
  emit CallNext ;;;
  match it with
  | [] => ret None
  | ItError e :: _ => if isDone e then ret None else ret (normalizeError (Some e))
  | ItEntity nativeKey props :: rest =>
      match loadEntity (nq_keysOnly nq) npls props with
      | (_, Fault) => panic
      | (_, Err e) => if isDone e then ret None else ret (normalizeError (Some e))
      | (npls, Ok _) =>
          match nativeKeyToGAE bds nativeKey with
          | None => panic
          | Some key =>
              match npls with
              | None => panic
              | Some npls =>
                  emit (CbRawRun key (pmap npls)) ;;;
                  err <- outside (cb key (pmap npls)) ;;
                  match err with
                  | Some e => if isStop e then ret None else ret (normalizeError (Some e))
                  | None => runLoop bds q nq cb rest
                  end
              end
          end
      end
  end.

(** Run *)
Definition Run (bds : boundDatastore) (q : FinalizedQuery)
    (cb : Key -> PropertyMap -> W -> error * W) : M W error :=
  let nq := prepareNativeQuery bds q in
  emit (CallRun nq) ;;;
  it <- outside (client_Run client nq) ;;
  runLoop bds q nq cb it.

End Adapter.

(** ** Notions used in the statements *)

Section Notions.

Context {W : Type} (client : Client W).

(** One attempt of RunInTransaction as a step of the outside: the call of
    the client's RunInTransaction with the wrapped body. *)
Definition attempt (bds : boundDatastore) (fn : Context -> W -> error * W)
    : W -> error * W :=
  client_RunInTransaction client (fun tx => fn (withDatastoreTransaction bds tx)).



End Notions.

(** The attempt bound: the option's, when positive, else 3. *)
Definition attemptBound (opts : option TransactionOptions) : nat :=
  match opts with
  | Some o => if (0 <? Attempts o)%Z then Z.to_nat (Attempts o) else 3
  | None => 3
  end.

(** The callback invocations among the interactions. *)
Definition isCallback (ev : Event) : bool :=
  match ev with
  | CbNewKey _ _ | CbGetMulti _ _ | CbDeleteMulti _ | CbRawRun _ _ => true
  | _ => false
  end.

Definition callbacks (tr : list Event) : list Event :=
  List.filter isCallback tr.


(** The callback invocation reports the event and returns no error. *)
Definition reports {W} (cb : nat -> error -> M W error) (ev : nat -> error -> Event)
    (i : nat) (err : error) : Prop :=
  ∀ s : State W, ∃ w, cb i err s = Returns None (mkState w (trace s ++ [ev i err])).

(** The invocation of the GetMulti callback at an index. *)
Definition getEvent (nativePLS : list nativePropertyLoadSaver) (idx : nat) (err : error)
    : Event :=
  CbGetMulti (match nativePLS !! idx with Some npls => pmap npls | None => None end) err.

(** The invocation of the PutMulti callback at an index: the decoded key
    when there is no error, else a nil key and the error. *)
Definition putEvent (bds : boundDatastore) (nativeKeys : list (option NativeKey))
    (idx : nat) (err : error) : Event :=
  match err with
  | None => CbNewKey (nativeKeys !! idx ≫= nativeKeyToGAE bds) None
  | Some _ => CbNewKey None err
  end.

(** The incomplete keys of a batch, in input order. *)
Fixpoint incompleteSubset (nativeKeys : list (option NativeKey)) : list NativeKey :=
  match nativeKeys with
  | [] => []
  | Some k :: rest =>
      if Incomplete k then k :: incompleteSubset rest else incompleteSubset rest
  | None :: rest => incompleteSubset rest
  end.

(** The indices of the incomplete keys of a batch whose first index is i. *)
Fixpoint incompleteIndices (i : nat) (nativeKeys : list (option NativeKey)) : list nat :=
  match nativeKeys with
  | [] => []
  | Some k :: rest =>
      if Incomplete k then i :: incompleteIndices (S i) rest
      else incompleteIndices (S i) rest
  | None :: rest => incompleteIndices (S i) rest
  end.

(** The batch with each incomplete key replaced, at its own index, by the
    next allocated key. *)
Fixpoint substituteAllocated (nativeKeys idKeys : list (option NativeKey))
    : list (option NativeKey) :=
  match nativeKeys with
  | [] => []
  | Some k :: rest =>
      if Incomplete k then
        match idKeys with
        | idKey :: idKeys' => idKey :: substituteAllocated rest idKeys'
        | [] => nativeKeys
        end
      else Some k :: substituteAllocated rest idKeys
  | None :: rest => None :: substituteAllocated rest idKeys
  end.

(** The map entries j, j+1, ... set to the given indices. *)
Fixpoint registerIndices (j : nat) (idxs : list nat) (m : gmap nat nat) : gmap nat nat :=
  match idxs with
  | [] => m
  | idx :: rest => registerIndices (S j) rest (<[j := idx]> m)
  end.

(** The keys written one after the other at the given indices. *)
Fixpoint insertAll (idxs : list nat) (idKeys nativeKeys : list (option NativeKey))
    : list (option NativeKey) :=
  match idxs, idKeys with
  | idx :: idxs', idKey :: idKeys' => insertAll idxs' idKeys' (<[idx := idKey]> nativeKeys)
  | _, _ => nativeKeys
  end.

(** The state an operation ends in. *)
Definition finalState {W A} (o : Outcome W A) : State W :=
  match o with
  | Returns _ s => s
  | Panics s => s
  end.

(** ** A backend for the examples *)

(** The state counts the calls. A transaction attempt runs the body on
    transaction 0 and then reports txErr; AllocateIDs answers with alloc;
    the batch calls answer with batchErr (GetMulti loads nothing, PutMulti
    returns the keys it was given); a query delivers the first limit items
    of results. *)
Definition stubClient (txErr : error)
    (alloc : list NativeKey -> list (option NativeKey))
    (batchErr : error) (results : Iterator) : Client nat :=
  mkClient nat
    (fun keys w => ((alloc keys, None), S w))
    (fun f w => let (e, w') := f 0%nat w in
                (match e with Some _ => e | None => txErr end, S w'))
    (fun nq w => (match nq_limit nq with
                  | Some l => take (Z.to_nat l) results
                  | None => results
                  end, S w))
    (fun keys w => ((map (fun _ => None) keys, batchErr), S w))
    (fun keys src w => ((keys, batchErr), S w))
    (fun keys w => (batchErr, S w))
    (fun tx keys w => ((map (fun _ => None) keys, batchErr), S w))
    (fun tx keys src w => (batchErr, S w))
    (fun tx keys w => (batchErr, S w)).

(** An allocation that numbers the requested keys from next on. *)
Fixpoint assignIDs (next : Z) (keys : list NativeKey) : list (option NativeKey) :=
  match keys with
  | [] => []
  | k :: rest =>
      Some (mkNativeKey (nk_kind k) (nk_name k) next (nk_parent k) (nk_namespace k))
      :: assignIDs (next + 1) rest
  end.

(** A query of kind "Kind" with a limit, keys-only or not. *)
Definition limitedQuery (keysOnly : bool) (limit : Z) : FinalizedQuery :=
  mkFinalizedQuery "Kind" [] "" ("", "", mkProperty VNull ShouldIndex)
    ("", "", mkProperty VNull ShouldIndex) (None, None) false keysOnly (Some limit)
    None None None false [].

(** Five stored entities of kind "Kind", with identifiers 1 to 5 and one
    integer property each. *)
Definition fiveEntities : Iterator :=
  map (fun i => ItEntity (Some (mkNativeKey "Kind" "" i None ""))
                         [mkNativeProperty "n" (NInt64 i) false])
      [1; 2; 3; 4; 5].

(** A callback that increments the counter of the state and asks to stop
    when the counter reaches n. *)
Definition stopAt (n : nat) : Key -> PropertyMap -> nat -> error * nat :=
  fun _ _ w => (if Nat.eqb (S w) n then Some Stop else None, S w).

(** A transaction body that succeeds and leaves the state as it is. *)
Definition okBody : Context -> nat -> error * nat := fun _ w => (None, w).

(** An iterator item that is an entity whose key is not nil and whose
    properties load into a fresh load/saver. *)
Definition loadable (bds : boundDatastore) (item : IterItem) : Prop :=
  ∃ nativeKey props npls key,
    item = ItEntity nativeKey props ∧
    Load (mkNPLS bds None) props = (npls, Ok tt) ∧
    nativeKeyToGAE bds nativeKey = Some key.

(** ** More of the adapter *)

(** The token a backend key stands for: its kind, id and name. *)
Definition tokOf (nk : NativeKey) : KeyTok :=
  mkKeyTok (nk_kind nk) (nk_id nk) (nk_name nk).

(** The backend key and all its ancestors carry the namespace ns. *)
Fixpoint inNamespace (ns : string) (nk : NativeKey) : bool :=
  String.eqb (nk_namespace nk) ns &&
  match nk_parent nk with
  | Some p => inNamespace ns p
  | None => true
  end.

(** The native values nativePropertyToGAE works on: the elements of a
    []interface{}, or the value alone. *)
Definition nativeValuesOf (nativeProp : NativeProperty) : list NativeValue :=
  match np_Value nativeProp with
  | NSlice vs => vs
  | v => [v]
  end.

(** The values the decoder's type switch has a case for. *)
Definition decoderAccepts (nv : NativeValue) : bool :=
  match nv with
  | NNil | NSlice _ | NOther _ => false
  | _ => true
  end.

(** A native value that is not a nil key pointer. *)
Definition notNilKey (nv : NativeValue) : bool :=
  match nv with
  | NKey None => false
  | _ => true
  end.

(** The values that Load appends under a name: those decoded from the
    native properties of that name, in order. *)
Definition decodedUnder (bds : boundDatastore) (name : string)
    (props : list NativeProperty) : list Property :=
  flat_map (fun nativeProp =>
              if String.eqb (np_Name nativeProp) name then
                match (nativePropertyToGAE bds nativeProp).2 with
                | Ok ps => ps
                | _ => []
                end
              else [])
           props.

(** What use reads from the info service of the context: GetNamespace and
    FullyQualifiedAppID. *)
Record InfoService := mkInfoService {
  inf_GetNamespace : string * bool;
  inf_FullyQualifiedAppID : string
}.

(** datastore.WithNamespace *)
Definition WithNamespace (c : Context) (ns : string) : Context :=
  mkContext ns (ctx_transaction c).

(** The factory installed by use: the datastore bound to the context ic. *)
Definition use (inf : Context -> InfoService) (ic : Context) (wantTxn : bool)
    : boundDatastore :=
  let info := inf ic in
  let '(ns, ok) := inf_GetNamespace info in
  let ic := if ok then WithNamespace ic ns else ic in
  mkBDS (ctx_namespace ic)
        (inf_FullyQualifiedAppID info)
        (if wantTxn then datastoreTransaction ic else None).

Section MoreAdapter.

Context {W : Type} (client : Client W).

(** The loop of AllocateIDs over the decoded keys: cb(key, nil), the result
    of the callback being dropped. *)
Fixpoint allocateCallbacks (cb : option Key -> error -> W -> error * W)
    (keys : list Key) : M W unit :=
  match keys with
  | [] => ret tt
  | key :: rest =>
      emit (CbNewKey (Some key) None) ;;;
      _ <- outside (cb (Some key) None) ;;
      allocateCallbacks cb rest
  end.

(** AllocateIDs. A key without tokens has a nil native key, which the
    backend cannot take: that case is a fault. *)
Definition AllocateIDs (bds : boundDatastore) (keys : list Key)
    (cb : option Key -> error -> W -> error * W) : M W error :=
  match mapM id (gaeKeysToNative bds keys) with
  | None => panic
  | Some request =>
      emit (CallAllocateIDs request) ;;;
      r <- outside (client_AllocateIDs client request) ;;
      let '(nativeKeys, err) := r in
      match err with
      | Some _ => ret (normalizeError err)
      | None =>
          match nativeKeysToGAE bds nativeKeys with
          | None => panic
          | Some keys => allocateCallbacks cb keys ;;; ret None
          end
      end
  end.

End MoreAdapter.

(** The native value of a property value of a supported type, as the
    encoder produces it. *)
Definition encodeValue (bds : boundDatastore) (v : PropertyValue) : NativeValue :=
  match v with
  | VInt n => NInt64 n
  | VTime t => NTime t
  | VBool b => NBool b
  | VBytes b => NBytes b
  | VString s => NString s
  | VFloat f => NFloat64 f
  | VKey k => NKey (gaeKeyToNative bds k)
  | VNull | VGeoPoint _ _ | VBlobKey _ => NNil
  end.

(** The type of the property is one the encoder has a case for. *)
Definition supportedProp (p : Property) : Prop := supportedType (propType p) = true.

(** The first index at which a list has an element satisfying P. *)
Definition firstAt {A} (P : A -> Prop) (l : list A) (i : nat) (x : A) : Prop :=
  l !! i = Some x ∧ P x ∧ ∀ j y, (j < i)%nat → l !! j = Some y → ¬ P y.

(** A batch callback whose result depends on the error it is given only. *)
Definition decidesBy {W} (cb : error -> W -> error * W) (verdict : error -> error) : Prop :=
  ∀ err w, (cb err w).1 = verdict err.




(** What the callback of Run is given for an iterator item: the decoded key
    and the property map loaded from the entity's properties; nothing for an
    error item, an entity that does not load or a nil key. *)
Definition decodedItem (bds : boundDatastore) (item : IterItem)
    : option (Key * PropertyMap) :=
  match item with
  | ItEntity nativeKey props =>
      match Load (mkNPLS bds None) props, nativeKeyToGAE bds nativeKey with
      | (npls, Ok _), Some key => Some (key, pmap npls)
      | _, _ => None
      end
  | ItError _ => None
  end.

(** The callback invocations of Run for the items. *)
Definition runEvents (bds : boundDatastore) (items : list IterItem) : list Event :=
  omap (fun item => (fun '(key, pm) => CbRawRun key pm) <$> decodedItem bds item) items.

(** A Run callback whose result depends on the key and the map only. *)
Definition runDecidesBy {W} (cb : Key -> PropertyMap -> W -> error * W)
    (verdict : Key -> PropertyMap -> error) : Prop :=
  ∀ key pm w, (cb key pm w).1 = verdict key pm.

(** The verdict of the callback on the item is to continue. *)
Definition continues (bds : boundDatastore) (verdict : Key -> PropertyMap -> error)
    (item : IterItem) : Prop :=
  ∃ key pm, decodedItem bds item = Some (key, pm) ∧ verdict key pm = None.

(** What Run returns when the iterator's next answer is the head of tail:
    nil at the end of results and on Done, else the normalised error. *)
Definition iteratorVerdict (tail : Iterator) : error :=
  match tail with
  | ItError e :: _ => if isDone e then None else normalizeError (Some e)
  | _ => None
  end.

(** ** The in-memory info service (impl/memory/info.go) *)

Record globalInfoData := mkGlobalInfoData {
  gid_appID : string;
  gid_fqAppID : string;
  gid_namespace : option string;
  gid_versionID : string;
  gid_requestID : string
}.

Definition defaultGlobalInfoData : globalInfoData :=
  mkGlobalInfoData "" "" None "testVersionID.1" "test-request-id".

(** The context as info.go reads it: the value stored under giContextKey,
    if there is one. *)
Definition InfoContext := option globalInfoData.

(** getNamespace *)
Definition getNamespace (gid : globalInfoData) : string * bool :=
  match gid_namespace gid with
  | Some ns => (ns, true)
  | None => ("", false)
  end.

(** curGID *)
Definition curGID (c : InfoContext) : globalInfoData :=
  match c with
  | Some gid => gid
  | None => defaultGlobalInfoData
  end.

(** useGID: a modified copy of the current data is stored in a new
    context; the context it was made from is left as it is. *)
Definition useGID (c : InfoContext) (f : globalInfoData -> globalInfoData) : InfoContext :=
  Some (f (curGID c)).

(** A character of the class [0-9A-Za-z._-]. *)
Definition namespaceChar (c : ascii) : bool :=
  let n := nat_of_ascii c in
  (Nat.leb 48 n && Nat.leb n 57) || (Nat.leb 65 n && Nat.leb n 90)
  || (Nat.leb 97 n && Nat.leb n 122)
  || Ascii.eqb c "." || Ascii.eqb c "_" || Ascii.eqb c "-".

(** validNamespace.MatchString: the whole string is at most 100 characters
    of the class. *)
Definition validNamespace (ns : string) : bool :=
  Nat.leb (String.length ns) 100 && forallb namespaceChar (list_ascii_of_string ns).

(** The error of Namespace, with the namespace it names. *)
Inductive InfoError := ErrNamespaceMismatch (ns : string).

(** The methods of giImpl, on the context it was made for. *)
Definition GetNamespace (c : InfoContext) : string * bool := getNamespace (curGID c).

Definition Namespace (c : InfoContext) (ns : string) : InfoError + InfoContext :=
  if validNamespace ns then
    inr (useGID c (fun gid =>
           mkGlobalInfoData (gid_appID gid) (gid_fqAppID gid) (Some ns)
                            (gid_versionID gid) (gid_requestID gid)))
  else inl (ErrNamespaceMismatch ns).

(** MustNamespace: [None] is the panic. *)
Definition MustNamespace (c : InfoContext) (ns : string) : option InfoContext :=
  match Namespace c ns with
  | inr ret => Some ret
  | inl _ => None
  end.

Definition AppID (c : InfoContext) : string := gid_appID (curGID c).
Definition FullyQualifiedAppID (c : InfoContext) : string := gid_fqAppID (curGID c).
Definition VersionID (c : InfoContext) : string := gid_versionID (curGID c).
Definition RequestID (c : InfoContext) : string := gid_requestID (curGID c).

Definition SetVersionID (c : InfoContext) (v : string) : InfoContext :=
  useGID c (fun gid =>
    mkGlobalInfoData (gid_appID gid) (gid_fqAppID gid) (gid_namespace gid)
                     v (gid_requestID gid)).

Definition SetRequestID (c : InfoContext) (v : string) : InfoContext :=
  useGID c (fun gid =>
    mkGlobalInfoData (gid_appID gid) (gid_fqAppID gid) (gid_namespace gid)
                     (gid_versionID gid) v).

(** The info service that use reads, when it is the in-memory one. *)
Definition memoryInfo (c : InfoContext) : InfoService :=
  mkInfoService (GetNamespace c) (FullyQualifiedAppID c).

(** ** More example backends *)

(** A backend whose GetMulti, in or out of a transaction, loads the given
    properties (none for a missing entity) and answers with the given
    error; the other calls are those of the backend without errors. *)
Definition storeClient (stored : list (option (list NativeProperty))) (getErr : error)
    : Client nat :=
  let base := stubClient None (assignIDs 100) None [] in
  mkClient nat
    (client_AllocateIDs base)
    (client_RunInTransaction base)
    (client_Run base)
    (fun keys w => ((stored, getErr), S w))
    (client_PutMulti base)
    (client_DeleteMulti base)
    (fun tx keys w => ((stored, getErr), S w))
    (tx_PutMulti base)
    (tx_DeleteMulti base).

(** A backend whose identifier allocation fails with the given error. *)
Definition failingAllocClient (e : Error) : Client nat :=
  let base := stubClient None (assignIDs 100) None [] in
  mkClient nat
    (fun keys w => (([], Some e), S w))
    (client_RunInTransaction base)
    (client_Run base)
    (client_GetMulti base)
    (client_PutMulti base)
    (client_DeleteMulti base)
    (tx_GetMulti base)
    (tx_PutMulti base)
    (tx_DeleteMulti base).

(** A backend whose query delivers the given items, whatever the query. *)
Definition iteratorClient (items : Iterator) : Client nat :=
  let base := stubClient None (assignIDs 100) None [] in
  mkClient nat
    (client_AllocateIDs base)
    (client_RunInTransaction base)
    (fun nq w => (items, S w))
    (client_GetMulti base)
    (client_PutMulti base)
    (client_DeleteMulti base)
    (tx_GetMulti base)
    (tx_PutMulti base)
    (tx_DeleteMulti base).

(** A Run callback that stops at the entity with the given integer id. *)
Definition stopAtID (id : Z) : Key -> PropertyMap -> nat -> error * nat :=
  fun key _ w =>
    (match last (k_toks key) with
     | Some tok => if Z.eqb (IntID tok) id then Some Stop else None
     | None => None
     end, w).

Definition stopAtIDVerdict (id : Z) : Key -> PropertyMap -> error :=
  fun key _ =>
    match last (k_toks key) with
    | Some tok => if Z.eqb (IntID tok) id then Some Stop else None
    | None => None
    end.

(** A batch callback that returns the error it is given. *)
Definition propagate : error -> nat -> error * nat := fun err w => (err, w).

(** * Properties *)

(** ** The key codec *)

Section KeyCodec.

Context {A : Type}.
Implicit Types l : list A.

Lemma swap_length l i j : length (swap l i j) = length l.
Proof.
  unfold swap. destruct (l !! i), (l !! j); try done.
  by rewrite !length_insert.
Qed.

Lemma swap_lookup l i j k :
  (i < length l)%nat → (j < length l)%nat →
  swap l i j !! k =
    if decide (k = j) then l !! i else if decide (k = i) then l !! j else l !! k.
Proof.
  intros Hi Hj. unfold swap.
  destruct (lookup_lt_is_Some_2 l i Hi) as [x Hx].
  destruct (lookup_lt_is_Some_2 l j Hj) as [y Hy].
  rewrite Hx, Hy.
  destruct (decide (k = j)) as [->|Hkj].
  - rewrite list_lookup_insert_eq; [done | by rewrite length_insert].
  - rewrite list_lookup_insert_ne by done.
    destruct (decide (k = i)) as [->|Hki].
    + by rewrite list_lookup_insert_eq.
    + by rewrite list_lookup_insert_ne.
Qed.

Lemma rounds_S k l : rounds (S k) l = swap (rounds k l) k (length (rounds k l) - k - 1).
Proof. unfold rounds. by rewrite seq_S, fold_left_app. Qed.

Lemma rounds_length k l : length (rounds k l) = length l.
Proof.
  induction k as [|k IH]; [done|].
  by rewrite rounds_S, swap_length.
Qed.

(** After k rounds the k outermost positions on both sides are exchanged
    and the middle is untouched. *)
Lemma rounds_lookup k l j :
  (2 * k ≤ length l)%nat → (j < length l)%nat →
  rounds k l !! j =
    if decide (j < k ∨ length l - k ≤ j)%nat then l !! (length l - 1 - j)%nat else l !! j.
Proof.
  revert j. induction k as [|k IH]; intros j Hk Hj.
  - simpl. destruct (decide _) as [[?|?]|?]; [lia| lia |done].
  - rewrite rounds_S, rounds_length.
    rewrite swap_lookup by (rewrite rounds_length; lia).
    rewrite !IH by lia.
    repeat destruct (decide _); try lia; try done; f_equal; lia.
Qed.

Lemma reverseInPlace_reverse l : reverseInPlace l = reverse l.
Proof.
  change (reverseInPlace l) with (rounds (length l / 2) l).
  pose proof (Nat.div_mod_eq (length l) 2) as Hdiv.
  pose proof (Nat.mod_upper_bound (length l) 2 ltac:(lia)) as Hmod.
  apply list_eq; intros j.
  destruct (decide (j < length l)%nat) as [Hj|Hj].
  - rewrite rounds_lookup by lia.
    rewrite reverse_lookup by done.
    destruct (decide _) as [?|Hmid]; f_equal; lia.
  - rewrite !lookup_ge_None_2; [done | rewrite length_reverse; lia
                               | rewrite rounds_length; lia].
Qed.

End KeyCodec.

Section KeyRoundTrip.

Variable bds : boundDatastore.

Lemma chainOf_nativeChild acc tok :
  chainOf (nativeChild bds acc tok) = tok :: chainOf acc.
Proof. destruct tok, acc; reflexivity. Qed.

(** Walking up from the key built over toks meets the tokens leaf first. *)
Lemma chainOf_fold toks acc :
  chainOf (fold_left (nativeChild bds) toks acc) = reverse toks ++ chainOf acc.
Proof.
  revert acc. induction toks as [|tok toks IH]; intros acc; [done|].
  simpl. rewrite IH, chainOf_nativeChild, reverse_cons, <- app_assoc. done.
Qed.

Lemma fold_nativeChild_namespace toks acc :
  toks ≠ [] →
  ∃ nk, fold_left (nativeChild bds) toks acc = Some nk ∧
        nk_namespace nk = ctxNamespace bds.
Proof.
  revert acc. induction toks as [|tok toks IH]; intros acc Hne; [done|].
  destruct toks as [|tok' toks].
  - simpl. eexists. split; reflexivity.
  - apply (IH (nativeChild bds acc tok)). done.
Qed.

Lemma gaeKeyToNative_Some (k : Key) :
  k_toks k ≠ [] →
  ∃ nk, gaeKeyToNative bds k = Some nk ∧
        nk_namespace nk = ctxNamespace bds ∧
        collectToks nk = reverse (k_toks k).
Proof.
  intros Hne. unfold gaeKeyToNative, Split.
  destruct (fold_nativeChild_namespace (k_toks k) None Hne) as (nk & Hnk & Hns).
  exists nk. split; [exact Hnk|]. split; [exact Hns|].
  pose proof (chainOf_fold (k_toks k) None) as Hc.
  rewrite Hnk in Hc. simpl in Hc.
  by rewrite app_nil_r in Hc.
Qed.

Lemma gaeKeyToNative_empty (k : Key) :
  k_toks k = [] → gaeKeyToNative bds k = None.
Proof. intros H. unfold gaeKeyToNative, Split. by rewrite H. Qed.

(** Decoding an encoded key gives the key's tokens in the adapter's scope. *)
Lemma nativeKeyToGAE_gaeKeyToNative (k : Key) :
  k_toks k ≠ [] →
  nativeKeyToGAE bds (gaeKeyToNative bds k) = Some (rescope bds k).
Proof.
  intros Hne. destruct (gaeKeyToNative_Some k Hne) as (nk & -> & Hns & Hc).
  unfold nativeKeyToGAE, rescope.
  by rewrite reverseInPlace_reverse, Hc, reverse_involutive, Hns.
Qed.

Lemma rescope_inScope (k : Key) : rescope bds k = k ↔ inScope bds k.
Proof.
  unfold rescope, NewKeyToks, inScope. destruct k as [a n t]; simpl. split.
  - intros [= <- <-]. done.
  - intros [-> ->]. done.
Qed.

Lemma nativeKeysToGAE_gaeKeysToNative (keys : list Key) :
  Forall (fun k => k_toks k ≠ []) keys →
  nativeKeysToGAE bds (gaeKeysToNative bds keys) = Some (map (rescope bds) keys).
Proof.
  unfold nativeKeysToGAE, gaeKeysToNative.
  induction 1 as [|k keys Hk _ IH]; [done|].
  simpl. rewrite nativeKeyToGAE_gaeKeyToNative by done. simpl.
  by rewrite IH.
Qed.

(** C1, as amended: for every complete abstract key k with at least one
    token, converting k to a backend-native key and converting the result
    back yields the key with k's tokens in their root-to-leaf order, the
    scope's application id and the native key's namespace, which is the
    namespace bound in the scope; this key is equal to k exactly when k's
    application id and namespace are those of the scope. *)
Theorem key_codec_roundtrip (k : Key) :
  completeKey k = true →
  k_toks k ≠ [] →
  ∃ nk, gaeKeysToNative bds [k] = [Some nk] ∧
        nativeKeysToGAE bds (gaeKeysToNative bds [k])
          = Some [NewKeyToks (appID bds) (nk_namespace nk) (k_toks k)] ∧
        nk_namespace nk = ctxNamespace bds ∧
        (nativeKeysToGAE bds (gaeKeysToNative bds [k]) = Some [k] ↔ inScope bds k).
Proof.
  intros _ Hne.
  destruct (gaeKeyToNative_Some k Hne) as (nk & Hnk & Hns & Hc).
  pose proof (nativeKeysToGAE_gaeKeysToNative [k]) as Hrt.
  rewrite Forall_singleton in Hrt. specialize (Hrt Hne).
  change (map (rescope bds) [k]) with [rescope bds k] in Hrt.
  exists nk. split; [by simpl; rewrite Hnk|].
  split; [by rewrite Hrt, Hns|]. split; [done|].
  rewrite Hrt, <- rescope_inScope. split.
  - by intros [= ->].
  - by intros ->.
Qed.

End KeyRoundTrip.

(** A scope of application "app" in the default namespace, and a key of
    another application. *)
Lemma key_codec_roundtrip_witness :
  let bds := mkBDS "" "app" None in
  let k := mkKey "app" "" [mkKeyTok "Parent" 0 "p"; mkKeyTok "Child" 7 ""] in
  nativeKeysToGAE bds (gaeKeysToNative bds [k]) = Some [k].
Proof.
  intros bds k.
  destruct (key_codec_roundtrip bds k) as (nk & _ & _ & _ & Hiff);
    [reflexivity | discriminate |].
  apply Hiff. split; reflexivity.
Defined.

(** C1 as stated fails for a complete key of another application: the
    decoded key carries the scope's application id. *)
Lemma key_codec_roundtrip_counterexample :
  let bds := mkBDS "" "app" None in
  let k := mkKey "other" "" [mkKeyTok "Kind" 1 ""] in
  completeKey k = true ∧
  nativeKeysToGAE bds (gaeKeysToNative bds [k]) = Some [mkKey "app" "" [mkKeyTok "Kind" 1 ""]] ∧
  nativeKeysToGAE bds (gaeKeysToNative bds [k]) ≠ Some [k].
Proof. repeat split. discriminate. Qed.

(** ** The property codec *)

Section PropertyCodec.

Variable bds : boundDatastore.

Lemma encodeValues_length props : ∀ i nvs,
  encodeValues bds i props = inr nvs → length nvs = length props.
Proof.
  induction props as [|p props IH]; intros i nvs H; simpl in H.
  - by injection H as <-.
  - destruct (encodeValues bds (S i) props) as [e|nvs'] eqn:E;
      destruct (propValue p); try discriminate;
      injection H as <-; simpl; f_equal; by eapply IH.
Qed.

(** The encoder never produces a slice for a single value. *)
Lemma encodeValues_scalar props : ∀ i nvs,
  encodeValues bds i props = inr nvs → Forall (fun nv => isSlice nv = false) nvs.
Proof.
  induction props as [|p props IH]; intros i nvs H; simpl in H.
  - injection H as <-. constructor.
  - destruct (encodeValues bds (S i) props) as [e|nvs'] eqn:E;
      destruct (propValue p); try discriminate;
      injection H as <-; (constructor; [reflexivity | by eapply IH]).
Qed.

(** Encoding decodable values succeeds, and decoding the encoded values
    gives each value back as the decoder sees it. *)
Lemma decodeValues_encodeValues (noIndex : bool) props :
  Forall decodable props →
  ∀ i, ∃ nvs, encodeValues bds i props = inr nvs ∧
              decodeValues bds noIndex i nvs = Ok (map (decoded bds noIndex) props).
Proof.
  induction 1 as [|p props Hp _ IH]; intros i; [by eexists|].
  destruct (IH (S i)) as (nvs & Henc & Hdec).
  destruct p as [v iset]. unfold decodable in Hp. simpl in Hp.
  destruct v; try done; cbn [encodeValues propValue]; rewrite Henc;
    eexists; (split; [reflexivity|]); cbn [decodeValues map];
    rewrite ?nativeKeyToGAE_gaeKeyToNative by done; rewrite Hdec; reflexivity.
Qed.

(** Whatever the decoder returns for a property not flagged no-index is
    marked should-index. *)
Lemma decodeValues_ShouldIndex nvs : ∀ i ps,
  decodeValues bds false i nvs = Ok ps →
  Forall (fun p => propIndexSetting p = ShouldIndex) ps.
Proof.
  induction nvs as [|nv nvs IH]; intros i ps H; simpl in H.
  - injection H as <-. constructor.
  - destruct (decodeValues bds false (S i) nvs) as [ps'| |] eqn:E.
    + specialize (IH _ _ E).
      destruct nv; try discriminate;
        try (injection H as <-; by constructor).
      destruct (nativeKeyToGAE bds k); [|discriminate].
      injection H as <-. by constructor.
    + destruct nv; try discriminate.
      destruct (nativeKeyToGAE bds k); discriminate.
    + destruct nv; try discriminate.
      destruct (nativeKeyToGAE bds k); discriminate.
Qed.

Lemma gaePropertyToNative_many name props nvs :
  (1 < length props)%nat →
  encodeValues bds 0 props = inr nvs →
  gaePropertyToNative bds name props = (mkNativeProperty name (NSlice nvs) false, None).
Proof.
  intros Hlen Henc. unfold gaePropertyToNative. rewrite Henc.
  pose proof (encodeValues_length _ _ _ Henc) as Hl.
  destruct nvs as [|nv [|nv' nvs]]; simpl in Hl; try lia; done.
Qed.

Lemma gaePropertyToNative_one name p nv :
  encodeValues bds 0 [p] = inr [nv] →
  gaePropertyToNative bds name [p] =
    (mkNativeProperty name nv
       (match propIndexSetting p with ShouldIndex => false | NoIndex => true end), None).
Proof. intros Henc. unfold gaePropertyToNative. by rewrite Henc. Qed.

Lemma decoded_roundTrips (p : Property) :
  roundTrips bds p →
  decoded bds (match propIndexSetting p with ShouldIndex => false | NoIndex => true end) p
    = normalizeUTC p.
Proof.
  intros [Hd Hk]. destruct p as [v iset]. unfold decoded, normalizeUTC; simpl in *.
  destruct v, iset; try done; apply rescope_inScope in Hk; by rewrite Hk.
Qed.

(** C2, as amended: for every non-empty property value list p whose values
    are of the supported types other than null (integer, timestamp, boolean,
    bytes, string, float, key), whose key values have at least one token and
    belong to the adapter's scope, and that has a single value or only values
    marked should-index, encoding p to a native property succeeds and
    decoding the result yields the name and p again, with timestamps
    normalised to UTC. *)
Theorem property_codec_roundtrip (name : string) (props : list Property) :
  props ≠ [] →
  Forall (roundTrips bds) props →
  length props = 1%nat ∨ Forall (fun p => propIndexSetting p = ShouldIndex) props →
  ∃ nativeProp,
    gaePropertyToNative bds name props = (nativeProp, None) ∧
    nativePropertyToGAE bds nativeProp = (name, Ok (map normalizeUTC props)).
Proof.
  intros Hne Hrt Hidx.
  assert (Hdec : Forall decodable props) by (eapply Forall_impl; [exact Hrt | by intros ? []]).
  destruct props as [|p [|p' props]]; [done | |].
  - (* a single value *)
    set (noIndex := match propIndexSetting p with ShouldIndex => false | NoIndex => true end).
    destruct (decodeValues_encodeValues noIndex [p] Hdec 0) as (nvs & Henc & Hd).
    pose proof (encodeValues_length _ _ _ Henc) as Hl.
    pose proof (encodeValues_scalar _ _ _ Henc) as Hs.
    destruct nvs as [|nv [|]]; try done.
    exists (mkNativeProperty name nv noIndex). split.
    + by apply gaePropertyToNative_one.
    + apply Forall_inv in Hs. apply Forall_inv in Hrt.
      unfold nativePropertyToGAE. cbn [np_Value np_Name np_NoIndex].
      destruct nv; simpl in Hs; try discriminate Hs; rewrite Hd; cbn [map];
        unfold noIndex;
        by rewrite decoded_roundTrips.
  - (* several values, all marked should-index *)
    destruct Hidx as [Hlen|Hidx]; [done|].
    destruct (decodeValues_encodeValues false _ Hdec 0) as (nvs & Henc & Hd).
    exists (mkNativeProperty name (NSlice nvs) false). split.
    + apply gaePropertyToNative_many; [simpl; lia | done].
    + unfold nativePropertyToGAE. cbn [np_Value np_Name np_NoIndex].
      rewrite Hd. do 2 f_equal.
      apply map_ext_Forall.
      rewrite Forall_forall in Hrt, Hidx. apply Forall_forall. intros q Hq.
      rewrite <- (decoded_roundTrips q (Hrt q Hq)). by rewrite (Hidx q Hq).
Qed.

(** C3: for every property value list with more than one element the
    encoded native property is never flagged no-index, whatever the
    per-value index settings are; every value that decoding the encoded
    property returns is marked should-index; and the decoding does return
    one value per element when the elements are values the decoder accepts
    back. *)
Theorem list_property_always_indexed (name : string) (props : list Property) :
  (1 < length props)%nat →
  np_NoIndex (gaePropertyToNative bds name props).1 = false ∧
  (∀ ps, (nativePropertyToGAE bds (gaePropertyToNative bds name props).1).2 = Ok ps →
         Forall (fun p => propIndexSetting p = ShouldIndex) ps) ∧
  (Forall decodable props →
   ∃ ps, nativePropertyToGAE bds (gaePropertyToNative bds name props).1 = (name, Ok ps) ∧
         length ps = length props ∧
         Forall (fun p => propIndexSetting p = ShouldIndex) ps).
Proof.
  intros Hlen.
  assert (Hno : np_NoIndex (gaePropertyToNative bds name props).1 = false).
  { unfold gaePropertyToNative.
    destruct (encodeValues bds 0 props) as [e|nvs] eqn:Henc; [done|].
    pose proof (encodeValues_length _ _ _ Henc) as Hl.
    destruct nvs as [|nv [|nv' nvs]]; simpl in Hl; try lia.
    destruct props; done. }
  split; [exact Hno|]. split.
  - intros ps. unfold nativePropertyToGAE. simpl. rewrite Hno.
    apply decodeValues_ShouldIndex.
  - intros Hdec.
    destruct (decodeValues_encodeValues false _ Hdec 0) as (nvs & Henc & Hd).
    rewrite (gaePropertyToNative_many name props nvs Hlen Henc).
    exists (map (decoded bds false) props). unfold nativePropertyToGAE. simpl.
    rewrite Hd. split; [done|]. split; [by rewrite length_map|].
    apply Forall_fmap, Forall_true. done.
Qed.

End PropertyCodec.

Lemma property_codec_roundtrip_witness :
  let bds := mkBDS "ns" "app" None in
  let props := [mkProperty (VInt 1) ShouldIndex;
                mkProperty (VTime (mkTime 5 LocLocal)) ShouldIndex;
                mkProperty (VKey (mkKey "app" "ns" [mkKeyTok "K" 1 ""])) ShouldIndex] in
  ∃ nativeProp,
    gaePropertyToNative bds "p" props = (nativeProp, None) ∧
    nativePropertyToGAE bds nativeProp = ("p", Ok (map normalizeUTC props)).
Proof.
  intros bds props. apply (property_codec_roundtrip bds "p" props).
  - discriminate.
  - repeat constructor; discriminate.
  - right. repeat constructor.
Defined.

(** C2 as stated fails for a list of two integers marked no-index, which
    come back marked should-index, and for a single key value of another
    application, which comes back as a key of the adapter's application. *)
Lemma property_codec_roundtrip_counterexample :
  let bds := mkBDS "ns" "app" None in
  let props := [mkProperty (VInt 1) NoIndex; mkProperty (VInt 2) NoIndex] in
  let ref := [mkProperty (VKey (mkKey "other" "ns" [mkKeyTok "K" 1 ""])) ShouldIndex] in
  (props ≠ [] ∧
   forallb (fun p => supportedType (propType p)) props = true ∧
   gaePropertyToNative bds "p" props
     = (mkNativeProperty "p" (NSlice [NInt64 1; NInt64 2]) false, None) ∧
   nativePropertyToGAE bds (gaePropertyToNative bds "p" props).1
     = ("p", Ok [mkProperty (VInt 1) ShouldIndex; mkProperty (VInt 2) ShouldIndex]) ∧
   nativePropertyToGAE bds (gaePropertyToNative bds "p" props).1
     ≠ ("p", Ok (map normalizeUTC props))) ∧
  (ref ≠ [] ∧
   forallb (fun p => supportedType (propType p)) ref = true ∧
   (gaePropertyToNative bds "p" ref).2 = None ∧
   nativePropertyToGAE bds (gaePropertyToNative bds "p" ref).1
     = ("p", Ok [mkProperty (VKey (mkKey "app" "ns" [mkKeyTok "K" 1 ""])) ShouldIndex]) ∧
   nativePropertyToGAE bds (gaePropertyToNative bds "p" ref).1
     ≠ ("p", Ok (map normalizeUTC ref))).
Proof. repeat split; discriminate. Qed.

(** A null value is encoded as a nil interface, which the decoder's type
    switch has no case for. *)
Example null_property_not_decoded :
  let bds := mkBDS "ns" "app" None in
  gaePropertyToNative bds "p" [mkProperty VNull ShouldIndex]
    = (mkNativeProperty "p" NNil false, None) ∧
  nativePropertyToGAE bds (mkNativeProperty "p" NNil false)
    = ("p", Err (ErrUnsupportedValueType 0 "<nil>")).
Proof. split; reflexivity. Qed.

Lemma list_property_always_indexed_witness :
  let bds := mkBDS "ns" "app" None in
  let props := [mkProperty (VInt 1) NoIndex; mkProperty (VString "a") NoIndex] in
  np_NoIndex (gaePropertyToNative bds "p" props).1 = false ∧
  nativePropertyToGAE bds (gaePropertyToNative bds "p" props).1
    = ("p", Ok [mkProperty (VInt 1) ShouldIndex; mkProperty (VString "a") ShouldIndex]).
Proof.
  intros bds props.
  destruct (list_property_always_indexed bds "p" props) as (Hno & _ & _);
    [simpl; lia|].
  split; [exact Hno | reflexivity].
Defined.

(** ** Saving a property map *)

Section SaveMeta.

Variable bds : boundDatastore.

Lemma gaePropertyToNative_name name props :
  np_Name (gaePropertyToNative bds name props).1 = name.
Proof.
  unfold gaePropertyToNative.
  destruct (encodeValues bds 0 props) as [e|[|nv [|nv' nvs]]]; try done.
  destruct props; done.
Qed.

(** The loop of Save returns the encoded non-meta entries after what it
    had, when each of them encodes. *)
Lemma saveEntries_ok entries : ∀ acc,
  Forall (fun e => (gaePropertyToNative bds e.1 e.2).2 = None)
         (filter (fun e => isMeta e.1 = false) entries) →
  saveEntries bds acc entries = (acc ++ encodedEntries bds entries, None).
Proof.
  unfold encodedEntries.
  induction entries as [|[name plist] entries IH]; intros acc Hall.
  - simpl. by rewrite app_nil_r.
  - simpl. rewrite filter_cons in Hall |- *. simpl in *.
    destruct (isMeta name) eqn:Hmeta.
    + rewrite decide_False in Hall |- * by done. by apply IH.
    + rewrite decide_True in Hall |- * by done.
      apply Forall_cons in Hall as [Hhd Htl]. simpl in Hhd.
      destruct (gaePropertyToNative bds name plist) as [np err] eqn:Henc.
      simpl in Hhd. subst err. rewrite IH by done.
      cbn [map fst snd]. rewrite Henc. cbn [fst]. by rewrite <- app_assoc.
Qed.

(** The loop returns without error only if each non-meta entry encodes. *)
Lemma saveEntries_None entries : ∀ acc props,
  saveEntries bds acc entries = (props, None) →
  Forall (fun e => (gaePropertyToNative bds e.1 e.2).2 = None)
         (filter (fun e => isMeta e.1 = false) entries).
Proof.
  induction entries as [|[name plist] entries IH]; intros acc props H.
  - constructor.
  - simpl in H. rewrite filter_cons. simpl.
    destruct (isMeta name) eqn:Hmeta.
    + rewrite decide_False by done. by eapply IH.
    + rewrite decide_True by done.
      destruct (gaePropertyToNative bds name plist) as [np [e|]] eqn:Henc;
        [discriminate|].
      constructor; [by simpl; rewrite Henc | by eapply IH].
Qed.

End SaveMeta.

(** C10: an empty or nil PropertyMap saves to no native properties; for any
    other map, in whatever order the map is visited, Save returns without
    error exactly when every entry whose name does not begin with "$"
    encodes, and then the native properties are the encodings of exactly
    those entries: no returned property has a name beginning with "$", and
    every entry with another name is encoded and present. *)
Theorem save_strips_meta (npls : nativePropertyLoadSaver)
    (order : list (string * list Property)) :
  let bds := npls_bds npls in
  (pmap npls = None ∨ pmap npls = Some ∅ → Save npls order = ([], None)) ∧
  (∀ m, pmap npls = Some m → rangeOrder m order →
     (Forall (fun e => (gaePropertyToNative bds e.1 e.2).2 = None)
             (filter (fun e => isMeta e.1 = false) order)
      ↔ ∃ props, Save npls order = (props, None)) ∧
     ∀ props, Save npls order = (props, None) →
       props = encodedEntries bds order ∧
       (∀ np, np ∈ props → isMeta (np_Name np) = false) ∧
       (∀ name plist, m !! name = Some plist → isMeta name = false →
          (gaePropertyToNative bds name plist).2 = None ∧
          (gaePropertyToNative bds name plist).1 ∈ props)).
Proof.
  intros bds. split.
  - intros [H|H]; unfold Save; rewrite H; [done|]. by rewrite map_size_empty.
  - intros m Hm Hord.
    assert (Hcase : size m = 0%nat ∧ order = [] ∨
                    Save npls order = saveEntries bds [] order).
    { unfold Save. rewrite Hm. destruct (Nat.eqb_spec (size m) 0) as [Hz|Hz].
      - left. split; [done|]. apply map_size_empty_inv in Hz. subst m.
        unfold rangeOrder in Hord. rewrite map_to_list_empty in Hord.
        by apply Permutation_nil_r in Hord.
      - by right. }
    assert (Hsave : ∀ props, Save npls order = (props, None) →
              Forall (fun e => (gaePropertyToNative bds e.1 e.2).2 = None)
                     (filter (fun e => isMeta e.1 = false) order) ∧
              props = encodedEntries bds order).
    { intros props Hs. destruct Hcase as [[Hz ->]|Heq].
      - split; [constructor|]. unfold Save in Hs. rewrite Hm, Hz in Hs.
        simpl in Hs. by injection Hs as <-.
      - rewrite Heq in Hs. pose proof (saveEntries_None _ _ _ _ Hs) as Hall.
        split; [done|]. rewrite (saveEntries_ok bds order [] Hall) in Hs.
        by injection Hs as <-. }
    split.
    + split.
      * intros Hall. destruct Hcase as [[Hz ->]|Heq].
        -- exists []. unfold Save. by rewrite Hm, Hz.
        -- eexists. rewrite Heq. by apply saveEntries_ok.
      * intros [props Hs]. by apply Hsave in Hs as [? _].
    + intros props Hs. destruct (Hsave props Hs) as [Hall ->].
      split; [done|]. split.
      * intros np Hnp. unfold encodedEntries in Hnp.
        apply list_elem_of_In, in_map_iff in Hnp as (e & <- & He).
        apply list_elem_of_In, list_elem_of_filter in He as [He _].
        by rewrite gaePropertyToNative_name.
      * intros name plist Hlook Hmeta.
        assert (Hin : (name, plist) ∈ filter (fun e => isMeta e.1 = false) order).
        { apply list_elem_of_filter. split; [done|].
          unfold rangeOrder in Hord. rewrite Hord.
          by apply elem_of_map_to_list. }
        split.
        -- rewrite Forall_forall in Hall. exact (Hall _ Hin).
        -- unfold encodedEntries. apply list_elem_of_In, in_map_iff.
           exists (name, plist). split; [done|]. by apply list_elem_of_In.
Qed.

Lemma save_strips_meta_witness :
  let bds := mkBDS "ns" "app" None in
  let m : gmap string (list Property) :=
    <["$kind" := [mkProperty (VString "Kind") ShouldIndex] ]>
    (<["value" := [mkProperty (VInt 3) ShouldIndex] ]> ∅) in
  let npls := mkLoadSaver bds (Some m) in
  Save npls (map_to_list m)
    = ([mkNativeProperty "value" (NInt64 3) false], None) ∧
  Save (mkLoadSaver bds None) [] = ([], None).
Proof.
  intros bds m npls.
  destruct (save_strips_meta npls (map_to_list m)) as [_ Hsome].
  destruct (save_strips_meta (mkLoadSaver bds None) []) as [Hnil _].
  split; [|apply Hnil; by left].
  destruct (Hsome m eq_refl (reflexivity _)) as [[Hex _] Hprops].
  destruct Hex as [props Hs].
  - vm_compute. repeat constructor.
  - rewrite Hs. destruct (Hprops props Hs) as [-> _]. vm_compute. reflexivity.
Defined.

(** ** The transaction retry loop *)

Section Transactions.

Context {W : Type} (client : Client W).
Variables (bds : boundDatastore) (fn : Context → W → error * W).

Lemma attemptLoop_step n (s : State W) :
  attemptLoop client bds fn (S n) s =
    let r := attempt client bds fn (world s) in
    let s' := mkState r.2 (trace s ++ [CallRunInTransaction]) in
    if isErrConcurrentTransaction (normalizeError r.1)
    then attemptLoop client bds fn n s'
    else Returns (normalizeError r.1) s'.
Proof.
  unfold attempt. simpl. unfold bind, emit, outside. simpl.
  destruct (client_RunInTransaction client _ (world s)) as [err w]. simpl.
  by destruct (isErrConcurrentTransaction (normalizeError err)).
Qed.




Lemma RunInTransaction_loop opts :
  transaction bds = None →
  (∀ o, opts = Some o → XG o = false) →
  RunInTransaction client bds fn opts = attemptLoop client bds fn (attemptBound opts).
Proof.
  intros Htx Hxg. unfold RunInTransaction, attemptBound. rewrite Htx.
  destruct opts as [o|]; [|done].
  rewrite (Hxg o eq_refl). by destruct (0 <? Attempts o)%Z.
Qed.

Lemma attemptBound_positive opts : (1 ≤ attemptBound opts)%nat.
Proof.
  unfold attemptBound. destruct opts as [o|]; [|lia].
  destruct (Z.ltb_spec 0 (Attempts o)); lia.
Qed.


(** C5: on a scope that already has a transaction bound, and for a call
    with the cross-group option set, RunInTransaction returns a
    configuration error at once: the state is the one it started in, so no
    backend call was made and no attempt was run. *)
Theorem nested_or_cross_group_rejected (opts : option TransactionOptions)
    (s : State W) :
  is_Some (transaction bds) ∨ (∃ o, opts = Some o ∧ XG o = true) →
  ∃ msg, RunInTransaction client bds fn opts s = Returns (Some (ErrorsNew msg)) s.
Proof.
  intros Hcase. unfold RunInTransaction.
  destruct (transaction bds) as [tx|] eqn:Htx.
  - by eexists.
  - destruct Hcase as [[tx Hx]|(o & -> & Hxg)]; [done|].
    rewrite Hxg. by eexists.
Qed.

End Transactions.


Lemma nested_or_cross_group_rejected_witness :
  let client := stubClient None (map Some) None [] in
  (∃ msg, RunInTransaction client (mkBDS "" "app" (Some 1%nat)) okBody None
            (mkState 0%nat []) = Returns (Some (ErrorsNew msg)) (mkState 0%nat [])) ∧
  (∃ msg, RunInTransaction client (mkBDS "" "app" None) okBody
            (Some (mkTransactionOptions true 5))
            (mkState 0%nat []) = Returns (Some (ErrorsNew msg)) (mkState 0%nat [])).
Proof.
  intros client. split.
  - apply (nested_or_cross_group_rejected client). left. by eexists.
  - apply (nested_or_cross_group_rejected client). right. by eexists.
Defined.

(** ** The batch sequencer *)

Lemma callbacks_app tr tr' : callbacks (tr ++ tr') = callbacks tr ++ callbacks tr'.
Proof. apply List.filter_app. Qed.

Section Sequencer.

Context {W : Type}.
Implicit Types (cb : nat → error → M W error) (s : State W).


Lemma idxCallbacker_aggregate ty me amt cb :
  idxCallbacker (Some (MultiError ty me)) amt cb = forEachError cb 0 me.
Proof. reflexivity. Qed.

(** A callback that reports and accepts is invoked once per entry of the
    aggregate, in order, with the entry's normalised error. *)
Lemma forEachError_reports cb ev me : ∀ i s,
  (∀ j err, me !! j = Some err → reports cb ev (i + j) (normalizeError err)) →
  ∃ w, forEachError cb i me s =
         Returns None
           (mkState w (trace s ++ imap (fun j err => ev (i + j)%nat (normalizeError err)) me)).
Proof.
  induction me as [|err me IH]; intros i s Hrep.
  - exists (world s). simpl. unfold ret. rewrite app_nil_r. by destruct s.
  - pose proof (Hrep 0%nat err eq_refl s) as [w Hcb].
    rewrite Nat.add_0_r in Hcb.
    destruct (IH (S i) (mkState w (trace s ++ [ev i (normalizeError err)]))) as [w' Hrest].
    { intros j err' Hj. replace (S i + j)%nat with (i + S j)%nat by lia.
      by apply Hrep. }
    exists w'. simpl. unfold bind at 1. rewrite Hcb, Hrest. simpl.
    rewrite <- app_assoc. simpl. rewrite Nat.add_0_r. do 4 f_equal.
    apply imap_ext. intros j err' _. simpl. f_equal. lia.
Qed.

(** On success it is invoked once per index below amt, without error. *)
Lemma forEachIndex_reports cb ev n : ∀ i s,
  (∀ j, (j < n)%nat → reports cb ev (i + j) None) →
  ∃ w, forEachIndex cb i n s =
         Returns None (mkState w (trace s ++ map (fun j => ev j None) (seq i n))).
Proof.
  induction n as [|n IH]; intros i s Hrep.
  - exists (world s). simpl. unfold ret. rewrite app_nil_r. by destruct s.
  - pose proof (Hrep 0%nat ltac:(lia) s) as [w Hcb].
    rewrite Nat.add_0_r in Hcb.
    destruct (IH (S i) (mkState w (trace s ++ [ev i None]))) as [w' Hrest].
    { intros j Hj. replace (S i + j)%nat with (i + S j)%nat by lia.
      apply Hrep. lia. }
    exists w'. simpl. unfold bind at 1. rewrite Hcb, Hrest. simpl.
    by rewrite <- app_assoc.
Qed.

Lemma deleteCallback_reports (cb : error → W → error * W) i err :
  (∀ err w, (cb err w).1 = None) →
  reports (deleteCallback cb) (fun _ err => CbDeleteMulti err) i err.
Proof.
  intros Hcb s. unfold deleteCallback, bind, emit, outside. simpl.
  specialize (Hcb err (world s)). destruct (cb err (world s)) as [r w].
  simpl in Hcb. subst r. by exists w.
Qed.

Lemma getCallback_reports nativePLS (cb : PropertyMap → error → W → error * W) i err :
  (i < length nativePLS)%nat →
  (∀ pm err w, (cb pm err w).1 = None) →
  reports (getCallback nativePLS cb) (getEvent nativePLS) i err.
Proof.
  intros Hi Hcb s. unfold getCallback, getEvent.
  destruct (lookup_lt_is_Some_2 nativePLS i Hi) as [npls ->].
  unfold bind, emit, outside. simpl.
  specialize (Hcb (pmap npls) err (world s)).
  destruct (cb (pmap npls) err (world s)) as [r w].
  simpl in Hcb. subst r. by exists w.
Qed.

Lemma putCallback_reports bds nativeKeys (cb : option Key → error → W → error * W) i err :
  (err = None → is_Some (nativeKeys !! i ≫= nativeKeyToGAE bds)) →
  (∀ k err w, (cb k err w).1 = None) →
  reports (putCallback bds nativeKeys cb) (putEvent bds nativeKeys) i err.
Proof.
  intros Hkey Hcb s. unfold putCallback, putEvent.
  destruct err as [e|].
  - unfold bind, emit, outside. simpl.
    specialize (Hcb None (Some e) (world s)).
    destruct (cb None (Some e) (world s)) as [r w].
    simpl in Hcb. subst r. by exists w.
  - destruct (Hkey eq_refl) as [key Hk].
    destruct (nativeKeys !! i) as [nativeKey|]; [|done]. simpl in Hk.
    rewrite Hk. simpl.
    unfold bind, emit, outside. simpl.
    specialize (Hcb (Some key) None (world s)).
    destruct (cb (Some key) None (world s)) as [r w].
    simpl in Hcb. subst r. exists w. by rewrite Hk.
Qed.

End Sequencer.

(** ** Identifier allocation in a transactional PutMulti *)

Section Allocation.

Implicit Types (nativeKeys idKeys : list (option NativeKey)) (m : gmap nat nat).

Lemma registerIndices_below idxs : ∀ j m p,
  (p < j)%nat → registerIndices j idxs m !! p = m !! p.
Proof.
  induction idxs as [|idx idxs IH]; intros j m p Hp; [done|].
  simpl. rewrite IH by lia. apply lookup_insert_ne. lia.
Qed.

Lemma registerIndices_lookup idxs : ∀ j m k idx,
  idxs !! k = Some idx → registerIndices j idxs m !! (j + k)%nat = Some idx.
Proof.
  induction idxs as [|idx' idxs IH]; intros j m k idx Hk; [done|].
  destruct k as [|k]; simpl in *.
  - injection Hk as ->. rewrite Nat.add_0_r, registerIndices_below by lia.
    apply lookup_insert_eq.
  - replace (j + S k)%nat with (S j + k)%nat by lia. by apply IH.
Qed.

(** The first loop collects the incomplete keys in input order and maps
    their positions to their indices. *)
Lemma findIncomplete_spec nativeKeys : ∀ i incompleteKeys m,
  Forall is_Some nativeKeys →
  findIncomplete i nativeKeys incompleteKeys m =
    Some (incompleteKeys ++ incompleteSubset nativeKeys,
          registerIndices (length incompleteKeys) (incompleteIndices i nativeKeys) m).
Proof.
  induction nativeKeys as [|k nativeKeys IH]; intros i acc m Hsome.
  - simpl. by rewrite app_nil_r.
  - apply Forall_cons in Hsome as [[nk ->] Hrest]. simpl.
    destruct (Incomplete nk).
    + rewrite IH by done. rewrite length_app, <- app_assoc. simpl.
      by rewrite Nat.add_1_r.
    + by apply IH.
Qed.

Lemma findIncomplete_nil nativeKeys : ∀ i incompleteKeys m,
  ¬ Forall is_Some nativeKeys →
  findIncomplete i nativeKeys incompleteKeys m = None.
Proof.
  induction nativeKeys as [|k nativeKeys IH]; intros i acc m Hnot.
  - destruct Hnot. constructor.
  - destruct k as [nk|]; [|done]. simpl.
    assert (¬ Forall is_Some nativeKeys).
    { intros H. apply Hnot. constructor; [by eexists | done]. }
    destruct (Incomplete nk); by apply IH.
Qed.

Lemma incompleteIndices_length nativeKeys : ∀ i,
  length (incompleteIndices i nativeKeys) = length (incompleteSubset nativeKeys).
Proof.
  induction nativeKeys as [|[nk|] nativeKeys IH]; intros i; simpl; [done| |done].
  destruct (Incomplete nk); simpl; by rewrite ?IH.
Qed.

Lemma incompleteIndices_bound nativeKeys : ∀ i,
  Forall (fun p => (p < i + length nativeKeys)%nat) (incompleteIndices i nativeKeys).
Proof.
  induction nativeKeys as [|[nk|] nativeKeys IH]; intros i; simpl; [constructor| |].
  - destruct (Incomplete nk); [constructor; [lia|]|];
      (eapply Forall_impl; [apply (IH (S i))|]); simpl; intros; lia.
  - eapply Forall_impl; [apply (IH (S i))|]. simpl; intros; lia.
Qed.

Lemma insertAll_length idxs : ∀ idKeys nativeKeys,
  length (insertAll idxs idKeys nativeKeys) = length nativeKeys.
Proof.
  induction idxs as [|idx idxs IH]; intros [|idKey idKeys] nativeKeys; simpl; try done.
  by rewrite IH, length_insert.
Qed.

(** The second loop writes the allocated keys at the registered indices. *)
Lemma substituteKeys_spec m idKeys : ∀ idxs i nativeKeys,
  (length idKeys ≤ length idxs)%nat →
  (∀ k idx, idxs !! k = Some idx → m !! (i + k)%nat = Some idx) →
  Forall (fun p => (p < length nativeKeys)%nat) idxs →
  substituteKeys m i idKeys nativeKeys = Some (insertAll idxs idKeys nativeKeys).
Proof.
  induction idKeys as [|idKey idKeys IH]; intros idxs i nativeKeys Hlen Hm Hb.
  - by destruct idxs.
  - destruct idxs as [|idx idxs]; [simpl in Hlen; lia|].
    simpl. pose proof (Hm 0%nat idx eq_refl) as H0.
    rewrite Nat.add_0_r in H0. rewrite H0. simpl.
    apply Forall_cons in Hb as [Hidx Hb].
    destruct (Nat.ltb_spec idx (length nativeKeys)); [|lia].
    apply IH.
    + simpl in Hlen. lia.
    + intros k idx' Hk. replace (S i + k)%nat with (i + S k)%nat by lia. by apply Hm.
    + by rewrite length_insert.
Qed.

Lemma substituteAllocated_nil nativeKeys : substituteAllocated nativeKeys [] = nativeKeys.
Proof.
  induction nativeKeys as [|[nk|] nativeKeys IH]; simpl; [done| |by rewrite IH].
  destruct (Incomplete nk); by rewrite ?IH.
Qed.

(** Writing at the indices of the incomplete keys replaces each incomplete
    key, where it stands, by the next allocated key. *)
Lemma insertAll_substituteAllocated nativeKeys : ∀ front idKeys,
  insertAll (incompleteIndices (length front) nativeKeys) idKeys (front ++ nativeKeys)
    = front ++ substituteAllocated nativeKeys idKeys.
Proof.
  induction nativeKeys as [|k nativeKeys IH]; intros front idKeys.
  - simpl. by destruct idKeys.
  - assert (Hshift : ∀ x idKeys',
              insertAll (incompleteIndices (S (length front)) nativeKeys) idKeys'
                        (front ++ x :: nativeKeys)
              = front ++ x :: substituteAllocated nativeKeys idKeys').
    { intros x idKeys'. specialize (IH (front ++ [x]) idKeys').
      rewrite length_app, Nat.add_1_r, <- !app_assoc in IH. exact IH. }
    destruct k as [nk|]; simpl; [|apply Hshift].
    destruct (Incomplete nk); [|apply Hshift].
    destruct idKeys as [|idKey idKeys]; [done|]. simpl.
    rewrite insert_app_r_alt by lia. rewrite Nat.sub_diag. simpl.
    apply Hshift.
Qed.

(** The two loops of the transactional PutMulti together. *)
Lemma substituteKeys_findIncomplete nativeKeys idKeys :
  Forall is_Some nativeKeys →
  length idKeys = length (incompleteSubset nativeKeys) →
  ∃ m, findIncomplete 0 nativeKeys [] ∅ = Some (incompleteSubset nativeKeys, m) ∧
       substituteKeys m 0 idKeys nativeKeys = Some (substituteAllocated nativeKeys idKeys).
Proof.
  intros Hsome Hlen. eexists. split.
  - by rewrite findIncomplete_spec.
  - rewrite (substituteKeys_spec _ idKeys (incompleteIndices 0 nativeKeys)).
    + f_equal. apply (insertAll_substituteAllocated nativeKeys []).
    + rewrite incompleteIndices_length. lia.
    + intros k idx Hk. simpl. by apply (registerIndices_lookup _ 0).
    + apply (incompleteIndices_bound nativeKeys 0).
Qed.

Lemma substituteAllocated_length nativeKeys : ∀ idKeys,
  length (substituteAllocated nativeKeys idKeys) = length nativeKeys.
Proof.
  induction nativeKeys as [|[nk|] nativeKeys IH]; intros idKeys; simpl; [done| |by rewrite IH].
  destruct (Incomplete nk); [destruct idKeys|]; simpl; by rewrite ?IH.
Qed.

(** A complete key stays at its index. *)
Lemma substituteAllocated_complete nativeKeys : ∀ idKeys i nk,
  (length (incompleteSubset nativeKeys) ≤ length idKeys)%nat →
  nativeKeys !! i = Some (Some nk) → Incomplete nk = false →
  substituteAllocated nativeKeys idKeys !! i = Some (Some nk).
Proof.
  induction nativeKeys as [|k nativeKeys IH]; intros idKeys i nk Hlen Hi Hc; [done|].
  destruct i as [|i]; simpl in Hi.
  - injection Hi as ->. simpl. by rewrite Hc.
  - destruct k as [nk'|]; simpl in *; [|by apply IH].
    destruct (Incomplete nk'); [|by apply IH].
    destruct idKeys as [|idKey idKeys]; simpl in *; [lia|].
    apply IH; [lia|done|done].
Qed.

(** An incomplete key is replaced, at its index, by the allocated key whose
    position is the number of incomplete keys before it. *)
Lemma substituteAllocated_incomplete nativeKeys : ∀ idKeys i nk,
  (length (incompleteSubset nativeKeys) ≤ length idKeys)%nat →
  nativeKeys !! i = Some (Some nk) → Incomplete nk = true →
  substituteAllocated nativeKeys idKeys !! i
    = idKeys !! length (incompleteSubset (take i nativeKeys)).
Proof.
  induction nativeKeys as [|k nativeKeys IH]; intros idKeys i nk Hlen Hi Hc; [done|].
  destruct i as [|i]; simpl in Hi.
  - injection Hi as ->. simpl in *. rewrite Hc in *.
    destruct idKeys; simpl in *; [lia|done].
  - destruct k as [nk'|]; simpl in *; [|by eapply IH].
    destruct (Incomplete nk'); [|by eapply IH].
    destruct idKeys as [|idKey idKeys]; simpl in *; [lia|].
    eapply IH; [lia|done|done].
Qed.

(** When every allocated key is complete, so is every key written. *)
Lemma substituteAllocated_all_complete nativeKeys : ∀ idKeys,
  Forall is_Some nativeKeys →
  (length (incompleteSubset nativeKeys) ≤ length idKeys)%nat →
  Forall (fun k => ∃ nk, k = Some nk ∧ Incomplete nk = false) idKeys →
  Forall (fun k => ∃ nk, k = Some nk ∧ Incomplete nk = false)
         (substituteAllocated nativeKeys idKeys).
Proof.
  induction nativeKeys as [|k nativeKeys IH]; intros idKeys Hsome Hlen Hids;
    [constructor|].
  apply Forall_cons in Hsome as [[nk ->] Hsome]. simpl in *.
  destruct (Incomplete nk) eqn:Hinc.
  - destruct idKeys as [|idKey idKeys]; simpl in *; [lia|].
    apply Forall_cons in Hids as [Hid Hids].
    constructor; [done|]. apply IH; [done|lia|done].
  - constructor; [by exists nk|]. by apply IH.
Qed.

End Allocation.

Section TransactionalPut.

Context {W : Type} (client : Client W).
Variable bds : boundDatastore.

Lemma gaeKeysToNative_is_Some (keys : list Key) :
  Forall (fun k => k_toks k ≠ []) keys →
  Forall is_Some (gaeKeysToNative bds keys).
Proof.
  unfold gaeKeysToNative. induction 1 as [|k keys Hk _ IH]; simpl; constructor; [|done].
  destruct (gaeKeyToNative_Some bds k Hk) as (nk & -> & _). by eexists.
Qed.

(** The native form of a key is incomplete exactly when the key's leaf
    token has no identifier. *)
Lemma gaeKeyToNative_Incomplete (k : Key) :
  k_toks k ≠ [] →
  ∃ nk, gaeKeyToNative bds k = Some nk ∧ Incomplete nk = negb (leafComplete k).
Proof.
  intros Hne. destruct (gaeKeyToNative_Some bds k Hne) as (nk & Hnk & _ & Hc).
  exists nk. split; [done|].
  assert (Hlast : last (k_toks k) = Some (mkKeyTok (nk_kind nk) (nk_id nk) (nk_name nk))).
  { rewrite <- head_reverse, <- Hc. by destruct nk. }
  unfold leafComplete, Incomplete, tokComplete. rewrite Hlast. simpl.
  by rewrite negb_involutive.
Qed.

(** The key decoded from a native key has an identifier at its leaf
    exactly when the native key is not incomplete. *)
Lemma nativeKeyToGAE_leafComplete (nk : NativeKey) :
  ∃ key, nativeKeyToGAE bds (Some nk) = Some key ∧
         leafComplete key = negb (Incomplete nk).
Proof.
  eexists. split; [reflexivity|].
  unfold leafComplete, NewKeyToks. simpl.
  rewrite reverseInPlace_reverse, last_reverse. by destruct nk.
Qed.

(** The allocation request is the native form of the keys without a leaf
    identifier, in input order. *)
Lemma incompleteSubset_gaeKeysToNative (keys : list Key) :
  Forall (fun k => k_toks k ≠ []) keys →
  map Some (incompleteSubset (gaeKeysToNative bds keys))
    = gaeKeysToNative bds (filter (fun k => leafComplete k = false) keys).
Proof.
  unfold gaeKeysToNative. induction 1 as [|k keys Hk _ IH]; [done|].
  destruct (gaeKeyToNative_Incomplete k Hk) as (nk & Hnk & Hinc).
  simpl. rewrite Hnk, Hinc, filter_cons.
  destruct (decide (leafComplete k = false)) as [Hl|Hl].
  - rewrite Hl. simpl. by rewrite Hnk, IH.
  - destruct (leafComplete k); [done|]. by destruct Hl.
Qed.

Lemma map_seq_lookup {A B} (f : option A → B) (l : list A) :
  map (fun j => f (l !! j)) (seq 0 (length l)) = map (fun x => f (Some x)) l.
Proof.
  induction l as [|x l IH]; [done|].
  simpl. f_equal. rewrite <- seq_shift, map_map. exact IH.
Qed.

(** Decoding a batch of native keys that are not nil. *)
Lemma nativeKeysToGAE_Some (nativeKeys : list (option NativeKey)) :
  Forall is_Some nativeKeys →
  ∃ decodedKeys,
    nativeKeysToGAE bds nativeKeys = Some decodedKeys ∧
    length decodedKeys = length nativeKeys ∧
    (∀ j, nativeKeys !! j ≫= nativeKeyToGAE bds = decodedKeys !! j).
Proof.
  unfold nativeKeysToGAE. induction 1 as [|k nativeKeys [nk ->] _ IH].
  - exists []. by repeat split.
  - destruct IH as (decodedKeys & Hd & Hl & Hj).
    destruct (nativeKeyToGAE_leafComplete nk) as (key & Hkey & _).
    simpl in Hkey. injection Hkey as <-.
    eexists (_ :: decodedKeys). simpl. rewrite Hd. simpl.
    split; [reflexivity|]. split; [by rewrite Hl|].
    intros [|j]; [done | apply Hj].
Qed.

(** The successful write of a batch reports, to the callback, the decoded
    key of every index in order. *)
Lemma put_callbacks_success (cb : option Key → error → W → error * W)
    (nativeKeys : list (option NativeKey)) (decodedKeys : list Key) (s : State W) :
  (∀ j, nativeKeys !! j ≫= nativeKeyToGAE bds = decodedKeys !! j) →
  length decodedKeys = length nativeKeys →
  (∀ k err w, (cb k err w).1 = None) →
  ∃ w, idxCallbacker None (length nativeKeys) (putCallback bds nativeKeys cb) s =
         Returns None
           (mkState w (trace s ++ map (fun k => CbNewKey (Some k) None) decodedKeys)).
Proof.
  intros Hj Hl Hcb. simpl.
  destruct (forEachIndex_reports (putCallback bds nativeKeys cb) (putEvent bds nativeKeys)
              (length nativeKeys) 0 s) as [w Hw].
  { intros j Hlt. apply putCallback_reports; [|done].
    intros _. rewrite Hj. apply lookup_lt_is_Some_2. simpl. lia. }
  exists w. rewrite Hw. do 3 f_equal.
  rewrite <- (map_seq_lookup (fun o => CbNewKey o None) decodedKeys), Hl.
  apply map_ext. intros j. unfold putEvent. by rewrite Hj.
Qed.

(** C6: in a transaction, for a batch of well-formed keys of which some
    are incomplete, when the backend's allocation answers with one complete
    key per requested key, the transactional write succeeds and the callback
    accepts: the allocation call is made, before the write, for exactly the
    native forms of the incomplete keys in input order; the write receives
    the batch in which each complete key stands unchanged at its index and
    each incomplete key is replaced, at its index, by the allocated key of
    its rank; and the callback is invoked once per index, in input order,
    without error, each time with a key that has an identifier at its leaf. *)
Theorem transactional_put_allocates (tx : Transaction) (keys : list Key)
    (vals : list PropertyMap) (cb : option Key → error → W → error * W)
    (s : State W) (idKeys : list (option NativeKey)) (w1 w2 : W) :
  let nativeKeys := gaeKeysToNative bds keys in
  let incomplete := incompleteSubset nativeKeys in
  let written := substituteAllocated nativeKeys idKeys in
  let nativePLS := map (mkNPLS bds) vals in
  transaction bds = Some tx →
  Forall (fun k => k_toks k ≠ []) keys →
  incomplete ≠ [] →
  client_AllocateIDs client incomplete (world s) = ((idKeys, None), w1) →
  length idKeys = length incomplete →
  Forall (fun k => ∃ nk, k = Some nk ∧ Incomplete nk = false) idKeys →
  tx_PutMulti client tx written nativePLS w1 = (None, w2) →
  (∀ k err w, (cb k err w).1 = None) →
  ∃ decodedKeys w,
    PutMulti client bds keys vals cb s =
      Returns None
        (mkState w (trace s ++ [CallAllocateIDs incomplete;
                               CallPutMulti (Some tx) written nativePLS]
                            ++ map (fun k => CbNewKey (Some k) None) decodedKeys)) ∧
    map Some incomplete
      = gaeKeysToNative bds (filter (fun k => leafComplete k = false) keys) ∧
    nativeKeysToGAE bds written = Some decodedKeys ∧
    length decodedKeys = length keys ∧
    Forall (fun k => leafComplete k = true) decodedKeys ∧
    (∀ i k, keys !! i = Some k → leafComplete k = true →
            written !! i = Some (gaeKeyToNative bds k) ∧
            decodedKeys !! i = Some (rescope bds k)) ∧
    (∀ i k, keys !! i = Some k → leafComplete k = false →
            written !! i = idKeys !! length (incompleteSubset (take i nativeKeys))).
Proof.
  intros nativeKeys incomplete written nativePLS Htx Hwf Hmix Halloc Hlen Hids Hput Hcb.
  pose proof (gaeKeysToNative_is_Some keys Hwf) as Hsome. fold nativeKeys in Hsome.
  assert (Hall : Forall (fun k => ∃ nk, k = Some nk ∧ Incomplete nk = false) written).
  { apply substituteAllocated_all_complete; [done | fold incomplete; lia | done]. }
  assert (Hwsome : Forall is_Some written).
  { eapply Forall_impl; [exact Hall|]. intros ? (nk & -> & _). by eexists. }
  destruct (nativeKeysToGAE_Some written Hwsome) as (decodedKeys & Hdec & Hdl & Hdj).
  destruct (put_callbacks_success cb written decodedKeys
              (mkState w2 (trace s ++ [CallAllocateIDs incomplete;
                                       CallPutMulti (Some tx) written nativePLS]))
              Hdj Hdl Hcb) as [w Hw].
  exists decodedKeys, w.
  assert (Hnative : ∀ i k, keys !! i = Some k →
            ∃ nk, gaeKeyToNative bds k = Some nk ∧ nativeKeys !! i = Some (Some nk) ∧
                  Incomplete nk = negb (leafComplete k)).
  { intros i k Hi. apply list_elem_of_lookup_2 in Hi as Hin.
    rewrite Forall_forall in Hwf.
    destruct (gaeKeyToNative_Incomplete k (Hwf k Hin)) as (nk & Hnk & Hinc).
    exists nk. split; [done|]. split; [|done].
    unfold nativeKeys, gaeKeysToNative. rewrite list_lookup_fmap, Hi. simpl.
    by rewrite Hnk. }
  split; [|split; [|split; [|split; [|split; [|split]]]]].
  - destruct (substituteKeys_findIncomplete nativeKeys idKeys Hsome Hlen)
      as (m & Hfind & Hsub).
    unfold PutMulti. fold nativeKeys nativePLS. rewrite Htx, Hfind.
    fold incomplete.
    destruct incomplete as [|nk0 inc0] eqn:Hinc; [done|].
    cbn [length Nat.ltb Nat.leb]. unfold bind at 1. unfold emit at 1.
    unfold bind at 1. unfold outside at 1. cbn [world trace].
    rewrite Halloc. cbn iota. rewrite Hsub. fold written.
    unfold bind at 1. unfold emit at 1. unfold bind at 1. unfold outside at 1.
    cbn [world trace]. rewrite Hput. cbn iota.
    rewrite <- app_assoc. simpl app at 1. rewrite Hw.
    cbn [trace]. by rewrite <- app_assoc.
  - by apply incompleteSubset_gaeKeysToNative.
  - exact Hdec.
  - rewrite Hdl. unfold written. rewrite substituteAllocated_length.
    unfold nativeKeys, gaeKeysToNative. apply length_map.
  - apply Forall_lookup. intros j key Hj.
    rewrite <- Hdj in Hj.
    destruct (written !! j) as [k|] eqn:Hwj; [|done]. simpl in Hj.
    rewrite Forall_lookup in Hall. destruct (Hall j k Hwj) as (nk & -> & Hinc).
    destruct (nativeKeyToGAE_leafComplete nk) as (key' & Hkey' & Hleaf).
    rewrite Hkey' in Hj. injection Hj as <-. by rewrite Hleaf, Hinc.
  - intros i k Hi Hleaf. destruct (Hnative i k Hi) as (nk & Hnk & Hni & Hinc).
    rewrite Hleaf in Hinc. simpl in Hinc.
    assert (Hwi : written !! i = Some (Some nk)).
    { apply substituteAllocated_complete; [fold incomplete; lia | done | done]. }
    split; [by rewrite Hnk|].
    rewrite <- Hdj, Hwi, <- Hnk.
    change (nativeKeyToGAE bds (gaeKeyToNative bds k) = Some (rescope bds k)).
    apply nativeKeyToGAE_gaeKeyToNative.
    apply list_elem_of_lookup_2 in Hi. rewrite Forall_forall in Hwf. by apply Hwf.
  - intros i k Hi Hleaf. destruct (Hnative i k Hi) as (nk & Hnk & Hni & Hinc).
    rewrite Hleaf in Hinc. simpl in Hinc.
    eapply substituteAllocated_incomplete; [fold incomplete; lia | done | done].
Qed.

End TransactionalPut.

(** Four keys, the second and the fourth incomplete: identifiers 100 and
    101 are allocated for them and every callback receives a complete key. *)
Lemma transactional_put_allocates_witness :
  let client := stubClient None (assignIDs 100) None [] in
  let bds := mkBDS "" "app" (Some 1%nat) in
  let keys := [mkKey "app" "" [mkKeyTok "A" 1 ""];
               mkKey "app" "" [mkKeyTok "A" 1 ""; mkKeyTok "B" 0 ""];
               mkKey "app" "" [mkKeyTok "C" 0 "c"];
               mkKey "app" "" [mkKeyTok "D" 0 ""]] in
  trace (finalState (PutMulti client bds keys [None; None; None; None]
                       (fun _ _ w => (None, w)) (mkState 0%nat [])))
  = [CallAllocateIDs
       [mkNativeKey "B" "" 0 (Some (mkNativeKey "A" "" 1 None "")) "";
        mkNativeKey "D" "" 0 None ""];
     CallPutMulti (Some 1%nat)
       [Some (mkNativeKey "A" "" 1 None "");
        Some (mkNativeKey "B" "" 100 (Some (mkNativeKey "A" "" 1 None "")) "");
        Some (mkNativeKey "C" "c" 0 None "");
        Some (mkNativeKey "D" "" 101 None "")]
       (map (mkNPLS bds) [None; None; None; None]);
     CbNewKey (Some (mkKey "app" "" [mkKeyTok "A" 1 ""])) None;
     CbNewKey (Some (mkKey "app" "" [mkKeyTok "A" 1 ""; mkKeyTok "B" 100 ""])) None;
     CbNewKey (Some (mkKey "app" "" [mkKeyTok "C" 0 "c"])) None;
     CbNewKey (Some (mkKey "app" "" [mkKeyTok "D" 101 ""])) None].
Proof.
  intros client bds keys.
  destruct (transactional_put_allocates client bds 1%nat keys [None; None; None; None]
              (fun _ _ w => (None, w)) (mkState 0%nat [])
              (assignIDs 100 (incompleteSubset (gaeKeysToNative bds keys)))
              1%nat 2%nat)
    as (decodedKeys & w & Hrun & _ & Hdec & _).
  - reflexivity.
  - repeat constructor; discriminate.
  - discriminate.
  - reflexivity.
  - reflexivity.
  - repeat constructor; eexists; (split; [reflexivity|reflexivity]).
  - reflexivity.
  - reflexivity.
  - rewrite Hrun. vm_compute in Hdec. injection Hdec as <-. reflexivity.
Defined.

(** ** Batch operations and backend errors *)

Section BatchErrors.

Context {W : Type} (client : Client W).
Variable bds : boundDatastore.
Implicit Types s : State W.






End BatchErrors.


(** An aggregate error over two keys: one invocation per entry. *)
Example batch_aggregate_example :
  let client :=
    stubClient None (map Some)
      (Some (MultiError NativeMultiError [None; Some NativeErrNoSuchEntity])) [] in
  let bds := mkBDS "" "app" None in
  let keys := [mkKey "app" "" [mkKeyTok "A" 1 ""]; mkKey "app" "" [mkKeyTok "A" 2 ""]] in
  DeleteMulti client bds keys (fun _ w => (None, w)) (mkState 0%nat [])
  = Returns None
      (mkState 1%nat [CallDeleteMulti None (gaeKeysToNative bds keys);
                      CbDeleteMulti None; CbDeleteMulti (Some ErrNoSuchEntity)]).
Proof. reflexivity. Qed.

(** ** Running a query *)

Section Queries.

Context {W : Type} (client : Client W).
Variable bds : boundDatastore.
Implicit Types (s : State W) (cb : Key → PropertyMap → W → error * W).

(** End of results: Next reports Done and the loop returns nil. *)
Lemma runLoop_end_of_results q nq cb s :
  runLoop bds q nq cb [] s = Returns None (mkState (world s) (trace s ++ [CallNext])).
Proof. reflexivity. Qed.

Lemma runLoop_Done q nq cb rest s :
  runLoop bds q nq cb (ItError NativeDone :: rest) s
    = Returns None (mkState (world s) (trace s ++ [CallNext])).
Proof. reflexivity. Qed.

(** One round of the loop of a query that is not keys-only, on an entity
    that loads: the callback is invoked with the decoded key and the loaded
    map; a nil result continues, the stop sentinel ends the loop with nil,
    any other error is returned normalised. *)
Lemma runLoop_entity q nq cb nativeKey props rest s npls key :
  fq_KeysOnly q = false → nq_keysOnly nq = false →
  Load (mkNPLS bds None) props = (npls, Ok tt) →
  nativeKeyToGAE bds nativeKey = Some key →
  runLoop bds q nq cb (ItEntity nativeKey props :: rest) s =
    let r := cb key (pmap npls) (world s) in
    let s' := mkState r.2 (trace s ++ [CallNext; CbRawRun key (pmap npls)]) in
    match r.1 with
    | None => runLoop bds q nq cb rest s'
    | Some e => Returns (if isStop e then None else normalizeError (Some e)) s'
    end.
Proof.
  intros Hq Hnq Hload Hkey. cbn [runLoop]. rewrite Hq.
  unfold loadEntity. rewrite Hnq, Hload, Hkey.
  unfold bind, emit, outside. cbn [world trace].
  destruct (cb key (pmap npls) (world s)) as [[e|] w]; cbn [fst snd];
    rewrite <- app_assoc; [|done].
  by destruct (isStop e).
Qed.

(** A query that is not keys-only, over results that load, with a callback
    that accepts: one invocation per result, then nil at the end of results. *)
Lemma runLoop_accepting q nq cb items : ∀ s,
  fq_KeysOnly q = false → nq_keysOnly nq = false →
  Forall (loadable bds) items →
  (∀ key pm w, (cb key pm w).1 = None) →
  ∃ s', runLoop bds q nq cb items s = Returns None s' ∧
        length (callbacks (trace s')) = (length (callbacks (trace s)) + length items)%nat.
Proof.
  induction items as [|item items IH]; intros s Hq Hnq Hload Hcb.
  - eexists. split; [apply runLoop_end_of_results|].
    simpl. rewrite callbacks_app, length_app. simpl. lia.
  - apply Forall_cons in Hload as [(nativeKey & props & npls & key & -> & Hl & Hk) Hrest].
    rewrite (runLoop_entity q nq cb nativeKey props items s npls key Hq Hnq Hl Hk).
    cbv zeta. rewrite Hcb.
    destruct (IH (mkState (cb key (pmap npls) (world s)).2
                          (trace s ++ [CallNext; CbRawRun key (pmap npls)]))
                 Hq Hnq Hrest Hcb) as (s' & Hrun & Hlen).
    exists s'. split; [exact Hrun|].
    rewrite Hlen. simpl. rewrite callbacks_app, length_app. simpl. lia.
Qed.

(** C9: for a keys-only query, as soon as the backend iterator delivers a
    result, Run stops on a run-time fault before the callback is invoked:
    no property loader was allocated, and reading its property map for the
    callback dereferences a nil pointer. *)
Theorem keys_only_run_faults q cb s nativeKey props rest w :
  fq_KeysOnly q = true →
  client_Run client (prepareNativeQuery bds q) (world s)
    = (ItEntity nativeKey props :: rest, w) →
  Run client bds q cb s =
    Panics (mkState w (trace s ++ [CallRun (prepareNativeQuery bds q); CallNext])).
Proof.
  intros Hq Hit. unfold Run, bind, emit, outside. cbn [world trace].
  rewrite Hit. cbn [runLoop]. rewrite Hq.
  unfold loadEntity. cbn [prepareNativeQuery nq_keysOnly]. rewrite Hq.
  unfold bind, emit. cbn [world trace]. rewrite <- app_assoc.
  by destruct (nativeKeyToGAE bds nativeKey).
Qed.

End Queries.

Lemma keys_only_run_faults_witness :
  let client := stubClient None (map Some) None fiveEntities in
  let bds := mkBDS "" "app" None in
  let q := limitedQuery true 1 in
  Run client bds q (fun _ _ w => (None, w)) (mkState 0%nat [])
    = Panics (mkState 1%nat [CallRun (prepareNativeQuery bds q); CallNext]).
Proof.
  intros client bds q.
  apply (keys_only_run_faults client bds q _ (mkState 0%nat [])
           (Some (mkNativeKey "Kind" "" 1 None ""))
           [mkNativeProperty "n" (NInt64 1) false] [] 1%nat); reflexivity.
Defined.

(** C8, at a failing input: a keys-only query with limit 3 over five
    matching entities. The backend delivers the first result and Run stops
    on a run-time fault; the callback is invoked zero times, not three, and
    Run does not return. *)
Theorem limited_keys_only_run_faults :
  let client := stubClient None (map Some) None fiveEntities in
  let bds := mkBDS "" "app" None in
  let q := limitedQuery true 3 in
  let result := Run client bds q (fun _ _ w => (None, w)) (mkState 0%nat []) in
  result = Panics (mkState 1%nat [CallRun (prepareNativeQuery bds q); CallNext]) ∧
  callbacks (trace (finalState result)) = [].
Proof. split; reflexivity. Qed.

(** The same query when it is not keys-only: three invocations, in order,
    and Run returns nil after the iterator reports the end of results. *)
Example limited_run_example :
  let client := stubClient None (map Some) None fiveEntities in
  let bds := mkBDS "" "app" None in
  let q := limitedQuery false 3 in
  let pm (i : Z) : PropertyMap := Some {[ "n" := [mkProperty (VInt i) ShouldIndex] ]} in
  let key (i : Z) := mkKey "app" "" [mkKeyTok "Kind" i ""] in
  Run client bds q (fun _ _ w => (None, w)) (mkState 0%nat [])
  = Returns None
      (mkState 1%nat [CallRun (prepareNativeQuery bds q);
                      CallNext; CbRawRun (key 1) (pm 1);
                      CallNext; CbRawRun (key 2) (pm 2);
                      CallNext; CbRawRun (key 3) (pm 3);
                      CallNext]).
Proof. vm_compute. reflexivity. Qed.

(** The callback returns the stop sentinel at its second invocation: the
    iteration halts there and Run returns nil. *)
Example stopped_run_example :
  let client := stubClient None (map Some) None fiveEntities in
  let bds := mkBDS "" "app" None in
  let q := limitedQuery false 5 in
  let result := Run client bds q (stopAt 3) (mkState 0%nat []) in
  (∃ s, result = Returns None s) ∧
  length (callbacks (trace (finalState result))) = 2%nat.
Proof. split; [eexists|]; vm_compute; reflexivity. Qed.


(** * Further properties of the adapter *)

(** ** Keys *)

Section MoreKeys.

Variable bds : boundDatastore.

(** X1: two keys have the same native form exactly when they have the same
    tokens; the application id and the namespace of a key play no part in
    its encoding. *)
Theorem gaeKeyToNative_same_tokens (k1 k2 : Key) :
  gaeKeyToNative bds k1 = gaeKeyToNative bds k2 ↔ k_toks k1 = k_toks k2.
Proof.
  split.
  - intros Heq.
    destruct (k_toks k1) as [|t1 l1] eqn:H1; destruct (k_toks k2) as [|t2 l2] eqn:H2.
    + done.
    + rewrite (gaeKeyToNative_empty bds k1 H1) in Heq.
      destruct (gaeKeyToNative_Some bds k2) as (nk & Hnk & _); [by rewrite H2|].
      congruence.
    + rewrite (gaeKeyToNative_empty bds k2 H2) in Heq.
      destruct (gaeKeyToNative_Some bds k1) as (nk & Hnk & _); [by rewrite H1|].
      congruence.
    + apply (f_equal (nativeKeyToGAE bds)) in Heq.
      rewrite !nativeKeyToGAE_gaeKeyToNative in Heq by congruence.
      apply (f_equal (fun o => k_toks <$> o)) in Heq. simpl in Heq. congruence.
  - intros Heq. unfold gaeKeyToNative, Split. by rewrite Heq.
Qed.

Lemma collectToks_unfold (nk : NativeKey) :
  collectToks nk = tokOf nk :: chainOf (nk_parent nk).
Proof. destruct nk as [kind name id [p|] ns]; reflexivity. Qed.

(** X2: the key decoded from a backend key has the tokens of the decoded
    parent followed by the token of the backend key itself (only that token
    for a root key), the adapter's application id and the backend key's own
    namespace. *)
Theorem nativeKeyToGAE_extends_parent (nk : NativeKey) :
  ∃ key, nativeKeyToGAE bds (Some nk) = Some key ∧
         k_appID key = appID bds ∧
         k_namespace key = nk_namespace nk ∧
         k_toks key =
           match nk_parent nk with
           | Some p =>
               match nativeKeyToGAE bds (Some p) with
               | Some parent => k_toks parent
               | None => []
               end
           | None => []
           end ++ [tokOf nk].
Proof.
  eexists. split; [reflexivity|]. split; [done|]. split; [done|].
  cbn [k_toks NewKeyToks]. rewrite reverseInPlace_reverse, collectToks_unfold, reverse_cons.
  f_equal. destruct (nk_parent nk) as [p|]; [|done].
  cbn [nativeKeyToGAE k_toks NewKeyToks chainOf]. by rewrite reverseInPlace_reverse.
Qed.

Lemma inNamespace_unfold ns (nk : NativeKey) :
  inNamespace ns nk =
    String.eqb (nk_namespace nk) ns &&
    match nk_parent nk with Some p => inNamespace ns p | None => true end.
Proof. by destruct nk. Qed.

Lemma fold_nativeChild_inNamespace toks : ∀ acc nk,
  match acc with Some a => inNamespace (ctxNamespace bds) a = true | None => True end →
  fold_left (nativeChild bds) toks acc = Some nk →
  inNamespace (ctxNamespace bds) nk = true.
Proof.
  induction toks as [|tok toks IH]; intros acc nk Hacc Hfold; simpl in Hfold.
  - by subst acc.
  - eapply IH; [|exact Hfold]. simpl. rewrite String.eqb_refl. simpl.
    by destruct acc.
Qed.

(** Re-encoding the tokens met on the way up from a backend key of the
    adapter's namespace builds that backend key again. *)
Lemma fold_nativeChild_collectToks :
  ∀ nk, inNamespace (ctxNamespace bds) nk = true →
        fold_left (nativeChild bds) (reverse (collectToks nk)) None = Some nk.
Proof.
  fix IH 1. intros [kind name id parent ns] Hin.
  rewrite inNamespace_unfold in Hin. apply andb_prop in Hin as [Hns Hp].
  apply String.eqb_eq in Hns. simpl in Hns, Hp.
  rewrite collectToks_unfold, reverse_cons, fold_left_app. simpl.
  unfold nativeChild at 1, NewKey, tokOf. simpl. subst ns. do 2 f_equal.
  destruct parent as [p|]; [|done].
  simpl. by apply IH.
Qed.

(** X3: a backend key decodes to a key that encodes back to the same backend
    key exactly when the backend key and all its ancestors carry the
    namespace bound in the adapter's context. *)
Theorem gaeKeyToNative_nativeKeyToGAE (nk : NativeKey) (key : Key) :
  nativeKeyToGAE bds (Some nk) = Some key →
  (gaeKeyToNative bds key = Some nk ↔ inNamespace (ctxNamespace bds) nk = true).
Proof.
  intros Hdec. simpl in Hdec. injection Hdec as <-.
  unfold gaeKeyToNative, Split, NewKeyToks. cbn [k_appID k_namespace k_toks].
  rewrite reverseInPlace_reverse. split.
  - intros Hfold. by eapply (fold_nativeChild_inNamespace _ None).
  - apply fold_nativeChild_collectToks.
Qed.

End MoreKeys.

Lemma gaeKeyToNative_nativeKeyToGAE_witness :
  let bds := mkBDS "ns" "app" None in
  let nk := mkNativeKey "Child" "" 7 (Some (mkNativeKey "Parent" "p" 0 None "ns")) "ns" in
  gaeKeyToNative bds (mkKey "app" "ns" [mkKeyTok "Parent" 0 "p"; mkKeyTok "Child" 7 ""])
    = Some nk.
Proof.
  intros bds nk.
  apply (gaeKeyToNative_nativeKeyToGAE bds nk); reflexivity.
Defined.

(** ** The property codec *)

Section MorePropertyCodec.

Variable bds : boundDatastore.

Lemma encodeValues_supported props : ∀ k,
  Forall supportedProp props →
  ∃ nvs, encodeValues bds k props = inr nvs.
Proof.
  induction props as [|[v iset] props IH]; intros k Hall; [by eexists|].
  apply Forall_cons in Hall as [Hp Hall].
  destruct (IH (S k) Hall) as [nvs Hnvs].
  unfold supportedProp, propType in Hp. simpl in Hp.
  destruct v; try discriminate Hp; simpl.
  all: rewrite Hnvs; by eexists.
Qed.

Lemma encodeValues_first_unsupported props : ∀ i k p,
  firstAt (fun q => supportedType (propType q) = false) props i p →
  encodeValues bds k props = inl (ErrUnsupportedPropertyType (k + i) (propType p)).
Proof.
  induction props as [|[v iset] props IH]; intros i k p (Hi & Hp & Hbefore); [done|].
  destruct i as [|i].
  - injection Hi as <-. rewrite Nat.add_0_r.
    unfold propType in Hp. simpl in Hp.
    destruct v; simpl; try reflexivity; discriminate Hp.
  - assert (Hv : supportedProp (mkProperty v iset)).
    { destruct (supportedType (propType (mkProperty v iset))) eqn:E; [done|].
      exfalso. by apply (Hbefore 0%nat _ ltac:(lia) eq_refl). }
    assert (Hrest : encodeValues bds (S k) props
                    = inl (ErrUnsupportedPropertyType (k + S i) (propType p))).
    { replace (k + S i)%nat with (S k + i)%nat by lia. apply IH.
      split; [exact Hi|]. split; [exact Hp|].
      intros j y Hj Hy. apply (Hbefore (S j) y); [lia | exact Hy]. }
    unfold supportedProp, propType in Hv. simpl in Hv.
    destruct v; try discriminate Hv; simpl; by rewrite Hrest.
Qed.

Lemma encodeValues_inr_supported props : ∀ k nvs,
  encodeValues bds k props = inr nvs → Forall supportedProp props.
Proof.
  induction props as [|[v iset] props IH]; intros k nvs H; [constructor|].
  simpl in H.
  destruct (encodeValues bds (S k) props) as [e|nvs'] eqn:E.
  - destruct v; discriminate.
  - constructor; [|by eapply IH].
    unfold supportedProp, propType. simpl. destruct v; try discriminate; reflexivity.
Qed.

(** X4: encoding a property succeeds exactly when every value is of a
    supported type; otherwise the error names the index and the type of the
    first value that is not, and the native property returned with it carries
    only the name. The encoding never faults. *)
Theorem gaePropertyToNative_error (name : string) (props : list Property) :
  ((gaePropertyToNative bds name props).2 = None ↔ Forall supportedProp props) ∧
  (∀ i p, firstAt (fun q => supportedType (propType q) = false) props i p →
     gaePropertyToNative bds name props
       = (mkNativeProperty name NNil false,
          Some (ErrUnsupportedPropertyType i (propType p)))).
Proof.
  split.
  - unfold gaePropertyToNative. split.
    + destruct (encodeValues bds 0 props) as [e|nvs] eqn:E; [done|].
      intros _. by eapply encodeValues_inr_supported.
    + intros Hall. destruct (encodeValues_supported props 0 Hall) as [nvs ->].
      by destruct nvs as [|nv [|]], props.
  - intros i p Hfirst. unfold gaePropertyToNative.
    by rewrite (encodeValues_first_unsupported props i 0 p Hfirst).
Qed.

(** The native values of an encoded property are the encoded values, one
    per property value, whether the property holds a scalar or a list. *)
Lemma nativeValuesOf_gaePropertyToNative name props nvs :
  encodeValues bds 0 props = inr nvs →
  gaePropertyToNative bds name props = ((gaePropertyToNative bds name props).1, None) ∧
  np_Name (gaePropertyToNative bds name props).1 = name ∧
  nativeValuesOf (gaePropertyToNative bds name props).1 = nvs.
Proof.
  intros Henc. pose proof (encodeValues_scalar _ _ _ _ Henc) as Hs.
  pose proof (encodeValues_length _ _ _ _ Henc) as Hl.
  unfold gaePropertyToNative. rewrite Henc.
  destruct nvs as [|nv [|nv' nvs]]; destruct props as [|p props]; try done.
  apply Forall_inv in Hs. by destruct nv.
Qed.

Lemma encodeValues_lookup props : ∀ k nvs j p,
  encodeValues bds k props = inr nvs →
  props !! j = Some p →
  nvs !! j = Some (encodeValue bds (propValue p)).
Proof.
  induction props as [|[v iset] props IH]; intros k nvs j p H Hj; [done|].
  simpl in H.
  destruct (encodeValues bds (S k) props) as [e|nvs'] eqn:E;
    [destruct v; discriminate|].
  destruct j as [|j].
  - injection Hj as <-. destruct v; try discriminate; by injection H as <-.
  - simpl in Hj. specialize (IH _ _ _ _ E Hj).
    destruct v; try discriminate; by injection H as <-.
Qed.

Lemma decodeValues_Ok_inv noIndex nv nvs k ps :
  decodeValues bds noIndex k (nv :: nvs) = Ok ps →
  decoderAccepts nv = true ∧ notNilKey nv = true ∧
  ∃ p ps', ps = p :: ps' ∧
           propIndexSetting p = (if noIndex then NoIndex else ShouldIndex) ∧
           decodeValues bds noIndex (S k) nvs = Ok ps'.
Proof.
  simpl. destruct (decodeValues bds noIndex (S k) nvs) as [ps'| |] eqn:E;
    destruct nv as [| | | | | | |[nk|]| |]; simpl; try discriminate;
    intros [= <-]; repeat split; eauto.
Qed.

(** X5: when decoding a native property succeeds, the name is the native
    property's, there is one value per native element (one for a scalar), and
    every value carries the same index setting: no-index exactly when the
    native property is flagged no-index. It succeeds exactly when the decoder
    has a case for every element and no key pointer is nil. *)
Theorem nativePropertyToGAE_shape (nativeProp : NativeProperty) :
  (nativePropertyToGAE bds nativeProp).1 = np_Name nativeProp ∧
  ((∃ ps, (nativePropertyToGAE bds nativeProp).2 = Ok ps) ↔
   Forall (fun nv => decoderAccepts nv = true ∧ notNilKey nv = true)
          (nativeValuesOf nativeProp)) ∧
  (∀ ps, (nativePropertyToGAE bds nativeProp).2 = Ok ps →
     length ps = length (nativeValuesOf nativeProp) ∧
     Forall (fun p => propIndexSetting p =
                      if np_NoIndex nativeProp then NoIndex else ShouldIndex) ps).
Proof.
  split; [done|].
  change ((nativePropertyToGAE bds nativeProp).2)
    with (decodeValues bds (np_NoIndex nativeProp) 0 (nativeValuesOf nativeProp)).
  generalize (nativeValuesOf nativeProp) 0%nat (np_NoIndex nativeProp).
  intros nvs k noIndex. split.
  - split.
    + intros [ps Hps]. revert k ps Hps.
      induction nvs as [|nv nvs IH]; intros k ps Hps; [constructor|].
      apply decodeValues_Ok_inv in Hps as (Ha & Hn & p & ps' & _ & _ & Hrest).
      constructor; [done|]. by eapply IH.
    + revert k. induction nvs as [|nv nvs IH]; intros k Hall; [by eexists|].
      apply Forall_cons in Hall as [[Ha Hn] Hall].
      destruct (IH (S k) Hall) as [ps Hps]. simpl. rewrite Hps.
      destruct nv as [| | | | | | |[nk|]| |]; try discriminate; by eexists.
  - revert k. induction nvs as [|nv nvs IH]; intros k ps Hps.
    + injection Hps as <-. split; [done | constructor].
    + apply decodeValues_Ok_inv in Hps as (_ & _ & p & ps' & -> & Hp & Hrest).
      destruct (IH _ _ Hrest) as [Hl Hall].
      split; [simpl; by rewrite Hl | by constructor].
Qed.

Lemma decodeValues_first_rejected noIndex nvs : ∀ i k nv,
  firstAt (fun x => decoderAccepts x && notNilKey x = false) nvs i nv →
  decoderAccepts nv = false →
  decodeValues bds noIndex k nvs = Err (ErrUnsupportedValueType (k + i) (goTypeName nv)).
Proof.
  induction nvs as [|x nvs IH]; intros i k nv (Hi & Hnv & Hbefore) Hrej; [done|].
  destruct i as [|i].
  - injection Hi as ->. rewrite Nat.add_0_r. by destruct nv.
  - assert (Hx : decoderAccepts x = true ∧ notNilKey x = true).
    { destruct (decoderAccepts x) eqn:E1, (notNilKey x) eqn:E2; try done;
        exfalso; apply (Hbefore 0%nat x ltac:(lia) eq_refl); by rewrite E1, E2. }
    destruct Hx as [Hxa Hxn]. simpl.
    assert (Hrest : decodeValues bds noIndex (S k) nvs
                    = Err (ErrUnsupportedValueType (k + S i) (goTypeName nv))).
    { replace (k + S i)%nat with (S k + i)%nat by lia. apply IH; [|done].
      split; [exact Hi|]. split; [exact Hnv|].
      intros j y Hj Hy. apply (Hbefore (S j) y); [lia | exact Hy]. }
    destruct x as [| | | | | | |[nk|]| |]; try discriminate; by rewrite Hrest.
Qed.


(** X7: a property whose values are all of supported types, with keys that
    have at least one token, and that holds a null value, is encoded without
    error, but decoding the encoded property fails: the encoder passes the
    null through as a nil and the decoder reports the nil at the index of the
    first null as an unsupported type. *)
Theorem null_value_not_decoded (name : string) (props : list Property)
    (i : nat) (p : Property) :
  Forall supportedProp props →
  Forall (fun q => match propValue q with VKey k => k_toks k ≠ [] | _ => True end) props →
  firstAt (fun q => propValue q = VNull) props i p →
  (gaePropertyToNative bds name props).2 = None ∧
  nativePropertyToGAE bds (gaePropertyToNative bds name props).1
    = (name, Err (ErrUnsupportedValueType i "<nil>")).
Proof.
  intros Hsup Hkeys (Hi & Hp & Hbefore).
  destruct (encodeValues_supported props 0 Hsup) as [nvs Henc].
  destruct (nativeValuesOf_gaePropertyToNative name props nvs Henc) as (Hrun & Hname & Hvals).
  split; [by rewrite Hrun|].
  assert (Hdec : nativePropertyToGAE bds (gaePropertyToNative bds name props).1
            = (np_Name (gaePropertyToNative bds name props).1,
               Err (ErrUnsupportedValueType i (goTypeName NNil))));
    [| by rewrite Hdec, Hname].
  unfold nativePropertyToGAE. f_equal.
  apply (decodeValues_first_rejected _ _ i 0 NNil); [|done].
  change (firstAt (fun x => decoderAccepts x && notNilKey x = false)
            (nativeValuesOf (gaePropertyToNative bds name props).1) i NNil).
  rewrite Hvals. split; [|split].
  - rewrite (encodeValues_lookup _ _ _ _ _ Henc Hi). by rewrite Hp.
  - done.
  - intros j y Hj Hy Hrej. apply not_true_iff_false in Hrej. apply Hrej.
    apply andb_true_intro.
    pose proof (encodeValues_length _ _ _ _ Henc) as Hlen.
    destruct (lookup_lt_is_Some_2 props j) as [q Hq].
    { apply lookup_lt_Some in Hy. lia. }
    rewrite (encodeValues_lookup _ _ _ _ _ Henc Hq) in Hy. injection Hy as <-.
    rewrite Forall_lookup in Hsup, Hkeys.
    specialize (Hsup j q Hq). specialize (Hkeys j q Hq).
    specialize (Hbefore j q Hj Hq).
    unfold supportedProp, propType in Hsup.
    destruct (propValue q) eqn:Hv; simpl in *; try done.
    destruct (gaeKeyToNative_Some bds k Hkeys) as (nk & Hnk & _).
    by rewrite Hnk.
Qed.

End MorePropertyCodec.


Lemma null_value_not_decoded_witness :
  let bds := mkBDS "ns" "app" None in
  let props := [mkProperty (VInt 1) ShouldIndex; mkProperty VNull ShouldIndex] in
  (gaePropertyToNative bds "p" props).2 = None ∧
  nativePropertyToGAE bds (gaePropertyToNative bds "p" props).1
    = ("p", Err (ErrUnsupportedValueType 1 "<nil>")).
Proof.
  intros bds props.
  apply (null_value_not_decoded bds "p" props 1 (mkProperty VNull ShouldIndex)).
  - repeat constructor.
  - repeat constructor.
  - split; [reflexivity|]. split; [reflexivity|].
    intros [|j] y Hj Hy; [|lia]. injection Hy as <-. discriminate.
Defined.

(** ** Loading and saving property maps *)

Section LoadSave.

Variable bds : boundDatastore.
Implicit Types m : gmap string (list Property).

Lemma clonePropertyMap_id (pm : PropertyMap) : clonePropertyMap pm = pm.
Proof.
  destruct pm as [m|]; [|done]. simpl. f_equal.
  apply map_eq. intros name. rewrite lookup_fmap. by destruct (m !! name).
Qed.

Lemma decodedUnder_cons name nativeProp props :
  decodedUnder bds name (nativeProp :: props) =
    (if String.eqb (np_Name nativeProp) name then
       match (nativePropertyToGAE bds nativeProp).2 with Ok ps => ps | _ => [] end
     else []) ++ decodedUnder bds name props.
Proof. reflexivity. Qed.

(** A successful run of the loop of Load appends, under every name, the
    values decoded from the properties of that name, in order. *)
Lemma loadProps_Ok props : ∀ m m',
  loadProps bds m props = (m', Ok tt) →
  ∀ name,
    default [] (m' !! name) = default [] (m !! name) ++ decodedUnder bds name props ∧
    (Forall (fun nativeProp => np_Name nativeProp ≠ name) props → m' !! name = m !! name).
Proof.
  induction props as [|nativeProp props IH]; intros m m' Hload name.
  - injection Hload as <-. unfold decodedUnder. simpl. by rewrite app_nil_r.
  - cbn [loadProps] in Hload. rewrite decodedUnder_cons.
    destruct (nativePropertyToGAE bds nativeProp) as [n [ps|e|]] eqn:Hdec;
      try discriminate.
    assert (Hn : n = np_Name nativeProp) by (by injection Hdec as <- _).
    destruct (IH _ _ Hload name) as [Happ Hsame]. cbn [snd].
    destruct (String.eqb_spec (np_Name nativeProp) name) as [Heq|Hne].
    + split.
      * rewrite Happ. subst n. rewrite Heq, lookup_insert_eq. simpl.
        by rewrite <- app_assoc.
      * intros Hall. apply Forall_inv in Hall. done.
    + split.
      * rewrite Happ, lookup_insert_ne by congruence. done.
      * intros Hall. apply Forall_inv_tail in Hall.
        rewrite (Hsame Hall). apply lookup_insert_ne. congruence.
Qed.

(** X8: after a successful Load the load/saver holds a map (allocated when
    it had none) in which every name keeps the values it had, followed by the
    values decoded from the loaded properties of that name, in order; a name
    that no loaded property carries keeps its entry, or stays absent. *)
Theorem Load_appends (npls npls' : nativePropertyLoadSaver)
    (props : list NativeProperty) :
  npls_bds npls = bds →
  Load npls props = (npls', Ok tt) →
  ∃ m', pmap npls' = Some m' ∧
    ∀ name,
      default [] (m' !! name)
        = default [] (pmap npls ≫= (fun m => m !! name)) ++ decodedUnder bds name props ∧
      (Forall (fun nativeProp => np_Name nativeProp ≠ name) props →
       m' !! name = pmap npls ≫= (fun m => m !! name)).
Proof.
  intros Hbds. unfold Load. rewrite Hbds.
  destruct (loadProps bds _ props) as [m' r] eqn:Hload.
  intros [= <- ->]. exists m'. split; [done|]. intros name.
  destruct (loadProps_Ok props _ _ Hload name) as [Happ Hsame].
  by destruct (pmap npls) as [m|].
Qed.

Lemma loadProps_app good rest : ∀ m,
  loadProps bds m (good ++ rest) =
    match loadProps bds m good with
    | (m1, Ok _) => loadProps bds m1 rest
    | r => r
    end.
Proof.
  induction good as [|nativeProp good IH]; intros m; [done|].
  rewrite <- app_comm_cons. cbn [loadProps].
  destruct (nativePropertyToGAE bds nativeProp) as [n [ps|e|]]; try done.
Qed.

(** X9: Load stops at the first property it cannot decode: it returns that
    decoding error, the properties before it stay loaded and the properties
    after it are not looked at. *)
Theorem Load_stops_at_error (npls npls1 : nativePropertyLoadSaver)
    (good rest : list NativeProperty) (bad : NativeProperty) (e : Error) :
  npls_bds npls = bds →
  Load npls good = (npls1, Ok tt) →
  (nativePropertyToGAE bds bad).2 = Err e →
  Load npls (good ++ bad :: rest) = (npls1, Err e).
Proof.
  intros Hbds. unfold Load. rewrite Hbds, loadProps_app.
  destruct (loadProps bds _ good) as [m1 r] eqn:Hgood.
  intros [= <- ->] Hbad. cbn [loadProps].
  destruct (nativePropertyToGAE bds bad) as [n res]. cbn [snd] in Hbad. by subst res.
Qed.

(** A value list that survives the round trip, the empty list included. *)
Lemma property_roundtrip_any (name : string) (props : list Property) :
  Forall (roundTrips bds) props →
  length props = 1%nat ∨ Forall (fun p => propIndexSetting p = ShouldIndex) props →
  gaePropertyToNative bds name props = ((gaePropertyToNative bds name props).1, None) ∧
  nativePropertyToGAE bds (gaePropertyToNative bds name props).1
    = (name, Ok (map normalizeUTC props)).
Proof.
  intros Hrt Hidx.
  assert (Hdec : Forall decodable props) by (eapply Forall_impl; [exact Hrt | by intros ? []]).
  set (noIndex := np_NoIndex (gaePropertyToNative bds name props).1).
  destruct (decodeValues_encodeValues bds noIndex props Hdec 0) as (nvs & Henc & Hd).
  destruct (nativeValuesOf_gaePropertyToNative bds name props nvs Henc)
    as (Hrun & Hname & Hvals).
  split; [exact Hrun|].
  change (nativePropertyToGAE bds (gaePropertyToNative bds name props).1)
    with (np_Name (gaePropertyToNative bds name props).1,
          decodeValues bds noIndex 0 (nativeValuesOf (gaePropertyToNative bds name props).1)).
  rewrite Hname, Hvals, Hd. do 2 f_equal.
  apply map_ext_Forall. rewrite Forall_forall in Hrt. apply Forall_forall. intros q Hq.
  destruct props as [|p [|p' props]].
  - by apply elem_of_nil in Hq.
  - apply list_elem_of_singleton in Hq as ->.
    rewrite <- (decoded_roundTrips bds p (Hrt p (list_elem_of_here _ _))).
    f_equal. unfold noIndex, gaePropertyToNative. rewrite Henc.
    pose proof (encodeValues_length _ _ _ _ Henc) as Hl.
    by destruct nvs as [|nv [|]].
  - destruct Hidx as [Hlen|Hidx]; [done|]. rewrite Forall_forall in Hidx.
    rewrite <- (decoded_roundTrips bds q (Hrt q Hq)), (Hidx q Hq).
    f_equal. unfold noIndex, gaePropertyToNative. rewrite Henc.
    pose proof (encodeValues_length _ _ _ _ Henc) as Hl.
    by destruct nvs as [|nv [|nv' nvs]].
Qed.

(** Loading the saved entries, when no entry is met twice. *)
Lemma loadProps_encodedEntries entries : ∀ m,
  NoDup entries.*1 →
  (∀ name plist, (name, plist) ∈ entries → isMeta name = false →
     Forall (roundTrips bds) plist ∧
     (length plist = 1%nat ∨ Forall (fun p => propIndexSetting p = ShouldIndex) plist)) →
  (∀ name plist, (name, plist) ∈ entries → m !! name = None) →
  ∃ m', loadProps bds m (encodedEntries bds entries) = (m', Ok tt) ∧
        ∀ name, m' !! name =
          match m !! name with
          | Some v => Some v
          | None => if isMeta name then None
                    else map normalizeUTC <$> (list_to_map entries : gmap string _) !! name
          end.
Proof.
  induction entries as [|[n pl] entries IH]; intros m Hnd Hrt Hfresh.
  - exists m. split; [done|]. intros name. simpl. rewrite lookup_empty. simpl.
    by destruct (m !! name), (isMeta name).
  - apply NoDup_cons in Hnd as [Hn Hnd]. simpl in Hn.
    assert (Hrt' : ∀ name plist, (name, plist) ∈ entries → isMeta name = false →
              Forall (roundTrips bds) plist ∧
              (length plist = 1%nat ∨
               Forall (fun p => propIndexSetting p = ShouldIndex) plist)).
    { intros name plist Hin. apply Hrt. by right. }
    unfold encodedEntries. rewrite filter_cons. cbn [fst].
    destruct (decide (isMeta n = false)) as [Hmeta|Hmeta].
    + destruct (Hrt n pl (list_elem_of_here _ _) Hmeta) as [Hr Hi].
      destruct (property_roundtrip_any n pl Hr Hi) as [_ Hdec].
      cbn [map fst snd loadProps]. rewrite Hdec.
      rewrite (Hfresh n pl (list_elem_of_here _ _)). cbn [default app].
      destruct (IH (<[n := map normalizeUTC pl]> m) Hnd Hrt') as (m' & Hload & Hlook).
      { intros name plist Hin. rewrite lookup_insert_ne.
        - apply (Hfresh name plist). by right.
        - intros ->. apply Hn. apply list_elem_of_fmap. by exists (name, plist). }
      exists m'. split; [exact Hload|]. intros name. rewrite Hlook.
      destruct (decide (name = n)) as [->|Hne].
      * rewrite lookup_insert_eq, (Hfresh n pl (list_elem_of_here _ _)), Hmeta.
        simpl. by rewrite lookup_insert_eq.
      * rewrite lookup_insert_ne by done. simpl. by rewrite lookup_insert_ne.
    + destruct (IH m Hnd Hrt') as (m' & Hload & Hlook).
      { intros name plist Hin. apply (Hfresh name plist). by right. }
      exists m'. split; [exact Hload|]. intros name. rewrite Hlook.
      destruct (m !! name) eqn:Hm; [done|].
      destruct (decide (name = n)) as [->|Hne].
      * apply not_false_is_true in Hmeta. by rewrite Hmeta.
      * simpl. by rewrite lookup_insert_ne.
Qed.

(** X10: saving a property map and loading the saved properties into a
    fresh load/saver gives back the map without its meta entries (names
    beginning with "$"), timestamps normalised to UTC, whatever the order in
    which Save visits the map; this holds when the values of every other
    entry survive the property codec's round trip. *)
Theorem Load_Save_roundtrip (m : gmap string (list Property))
    (order : list (string * list Property)) :
  rangeOrder m order →
  (∀ name plist, m !! name = Some plist → isMeta name = false →
     Forall (roundTrips bds) plist ∧
     (length plist = 1%nat ∨ Forall (fun p => propIndexSetting p = ShouldIndex) plist)) →
  ∃ props npls' m',
    Save (mkNPLS bds (Some m)) order = (props, None) ∧
    Load (mkNPLS bds None) props = (npls', Ok tt) ∧
    pmap npls' = Some m' ∧
    ∀ name, m' !! name =
      if isMeta name then None else map normalizeUTC <$> m !! name.
Proof.
  intros Hord Hrt. unfold rangeOrder in Hord.
  assert (Hnd : NoDup order.*1).
  { rewrite Hord. apply NoDup_fst_map_to_list. }
  assert (Hin : ∀ name plist, (name, plist) ∈ order ↔ m !! name = Some plist).
  { intros name plist. rewrite Hord. apply elem_of_map_to_list. }
  assert (Hmap : (list_to_map order : gmap string _) = m).
  { rewrite (list_to_map_proper order (map_to_list m) Hnd Hord).
    apply list_to_map_to_list. }
  destruct (loadProps_encodedEntries order ∅ Hnd) as (m' & Hload & Hlook).
  { intros name plist Hi. apply Hrt. by apply Hin. }
  { intros. apply lookup_empty. }
  assert (Hsave : Save (mkNPLS bds (Some m)) order = (encodedEntries bds order, None)).
  { unfold Save, mkNPLS. cbn [pmap npls_bds]. rewrite clonePropertyMap_id.
    destruct (Nat.eqb_spec (size m) 0) as [Hz|Hz].
    - apply map_size_empty_inv in Hz. rewrite Hz, map_to_list_empty in Hord.
      apply Permutation_nil_r in Hord. by rewrite Hord.
    - apply (saveEntries_ok bds order []).
      apply Forall_forall. intros [name plist] Hi.
      apply list_elem_of_filter in Hi as [Hmeta Hi]. simpl in Hmeta. cbn [fst snd].
      destruct (Hrt name plist (proj1 (Hin _ _) Hi) Hmeta) as [Hr Hidx].
      destruct (property_roundtrip_any name plist Hr Hidx) as [Hrun _].
      by rewrite Hrun. }
  exists (encodedEntries bds order), (mkLoadSaver bds (Some m')), m'.
  split; [exact Hsave|]. split.
  - unfold Load, mkNPLS. cbn [pmap npls_bds clonePropertyMap]. by rewrite Hload.
  - split; [done|]. intros name. rewrite Hlook, lookup_empty, Hmap. done.
Qed.

End LoadSave.

Lemma Load_appends_witness :
  let bds := mkBDS "ns" "app" None in
  let npls := mkLoadSaver bds (Some {[ "n" := [mkProperty (VInt 1) ShouldIndex] ]}) in
  let props := [mkNativeProperty "n" (NInt64 2) true; mkNativeProperty "s" (NString "x") false] in
  ∃ npls' m', Load npls props = (npls', Ok tt) ∧ pmap npls' = Some m' ∧
    default [] (m' !! "n")
      = [mkProperty (VInt 1) ShouldIndex; mkProperty (VInt 2) NoIndex].
Proof.
  intros bds npls props.
  destruct (Load npls props) as [npls' r] eqn:Hload.
  assert (Hr : r = Ok tt) by (vm_compute in Hload; congruence).
  subst r.
  destruct (Load_appends bds npls npls' props eq_refl Hload) as (m' & Hm' & Hnames).
  exists npls', m'. split; [done|]. split; [done|].
  by destruct (Hnames "n") as [-> _].
Defined.

Lemma Load_stops_at_error_witness :
  let bds := mkBDS "ns" "app" None in
  let good := [mkNativeProperty "n" (NInt64 2) false] in
  let bad := mkNativeProperty "x" NNil false in
  let rest := [mkNativeProperty "s" (NString "x") false] in
  Load (mkNPLS bds None) (good ++ bad :: rest)
    = (mkLoadSaver bds (Some {[ "n" := [mkProperty (VInt 2) ShouldIndex] ]}),
       Err (ErrUnsupportedValueType 0 "<nil>")).
Proof.
  intros bds good bad rest.
  apply (Load_stops_at_error bds (mkNPLS bds None)); [reflexivity | | reflexivity].
  vm_compute. reflexivity.
Defined.

Lemma Load_Save_roundtrip_witness :
  let bds := mkBDS "ns" "app" None in
  let m : gmap string (list Property) :=
    <["$kind" := [mkProperty (VString "Kind") ShouldIndex] ]>
    (<["when" := [mkProperty (VTime (mkTime 5 LocLocal)) NoIndex] ]> ∅) in
  ∃ props npls' m',
    Save (mkNPLS bds (Some m)) (map_to_list m) = (props, None) ∧
    Load (mkNPLS bds None) props = (npls', Ok tt) ∧
    pmap npls' = Some m' ∧
    m' !! "when" = Some [mkProperty (VTime (mkTime 5 LocUTC)) NoIndex] ∧
    m' !! "$kind" = None.
Proof.
  intros bds m.
  destruct (Load_Save_roundtrip bds m (map_to_list m)) as (props & npls' & m' & Hs & Hl & Hp & Hlook).
  - unfold rangeOrder. reflexivity.
  - intros name plist Hlook Hmeta.
    destruct (decide (name = "when")) as [->|Hne].
    + vm_compute in Hlook. injection Hlook as <-.
      split; [|by left]. repeat constructor.
    + destruct (decide (name = "$kind")) as [->|Hne']; [discriminate Hmeta|].
      unfold m in Hlook. rewrite !lookup_insert_ne, lookup_empty in Hlook by done.
      discriminate.
  - exists props, npls', m'. split; [done|]. split; [done|]. split; [done|].
    split; [by rewrite (Hlook "when") | by rewrite (Hlook "$kind")].
Defined.

(** ** Batch operations *)

Section MoreBatch.

Context {W : Type} (client : Client W).
Variable bds : boundDatastore.
Implicit Types s : State W.

Local Arguments Load : simpl never.

Lemma gaeKeysToNative_request (keys : list Key) :
  Forall (fun k => k_toks k ≠ []) keys →
  ∃ request, mapM id (gaeKeysToNative bds keys) = Some request ∧
             map Some request = gaeKeysToNative bds keys.
Proof.
  unfold gaeKeysToNative. induction 1 as [|k keys Hk _ (request & Hreq & Hmap)].
  - by exists [].
  - destruct (gaeKeyToNative_Some bds k Hk) as (nk & Hnk & _).
    exists (nk :: request). cbn [map mapM]. rewrite Hnk. cbn. rewrite Hreq. cbn.
    by rewrite Hmap.
Qed.

Lemma allocateCallbacks_trace (cb : option Key → error → W → error * W) keys : ∀ s,
  ∃ w, allocateCallbacks cb keys s =
         Returns tt (mkState w (trace s ++ map (fun k => CbNewKey (Some k) None) keys)).
Proof.
  induction keys as [|key keys IH]; intros s.
  - exists (world s). simpl. unfold ret. rewrite app_nil_r. by destruct s.
  - cbn [allocateCallbacks]. unfold bind at 1. unfold emit at 1. unfold bind at 1.
    unfold outside at 1. cbn [world trace].
    destruct (cb (Some key) None (world s)) as [r w1].
    destruct (IH (mkState w1 (trace s ++ [CbNewKey (Some key) None]))) as [w Hw].
    exists w. rewrite Hw. cbn [trace map]. by rewrite <- app_assoc.
Qed.

(** X11: AllocateIDs over keys that have tokens sends their native forms to
    the backend. When the backend answers with an error, that error is
    returned normalised and the callback is not invoked. When it answers with
    keys, the callback is invoked once per returned key, in order, with the
    decoded key and no error, and AllocateIDs returns nil whatever the
    callback returns: the callback's result is dropped. *)
Theorem AllocateIDs_outcomes (keys : list Key)
    (cb : option Key → error → W → error * W) (s : State W) :
  Forall (fun k => k_toks k ≠ []) keys →
  ∃ request,
    map Some request = gaeKeysToNative bds keys ∧
    ∀ nativeKeys err w1,
      client_AllocateIDs client request (world s) = ((nativeKeys, err), w1) →
      (∀ e, err = Some e →
         AllocateIDs client bds keys cb s =
           Returns (normalizeError (Some e))
             (mkState w1 (trace s ++ [CallAllocateIDs request]))) ∧
      (err = None → Forall is_Some nativeKeys →
         ∃ decodedKeys w,
           nativeKeysToGAE bds nativeKeys = Some decodedKeys ∧
           length decodedKeys = length nativeKeys ∧
           AllocateIDs client bds keys cb s =
             Returns None
               (mkState w (trace s ++ CallAllocateIDs request ::
                             map (fun k => CbNewKey (Some k) None) decodedKeys))).
Proof.
  intros Hwf. destruct (gaeKeysToNative_request keys Hwf) as (request & Hreq & Hmap).
  exists request. split; [exact Hmap|].
  intros nativeKeys err w1 Hans.
  assert (Hrun : AllocateIDs client bds keys cb s =
            match err with
            | Some _ => ret (normalizeError err)
            | None =>
                match nativeKeysToGAE bds nativeKeys with
                | None => panic
                | Some keys => allocateCallbacks cb keys ;;; ret None
                end
            end (mkState w1 (trace s ++ [CallAllocateIDs request]))).
  { unfold AllocateIDs. rewrite Hreq.
    unfold bind at 1. unfold emit at 1. unfold bind at 1. unfold outside at 1.
    cbn [world trace]. by rewrite Hans. }
  rewrite Hrun. split.
  - by intros e ->.
  - intros -> Hsome.
    destruct (nativeKeysToGAE_Some bds nativeKeys Hsome) as (decodedKeys & Hdec & Hlen & _).
    rewrite Hdec.
    destruct (allocateCallbacks_trace cb decodedKeys
                (mkState w1 (trace s ++ [CallAllocateIDs request]))) as [w Hw].
    exists decodedKeys, w. split; [done|]. split; [done|].
    unfold bind. rewrite Hw. unfold ret. cbn [trace]. by rewrite <- app_assoc.
Qed.

(** What the backend's loads leave in the destinations. *)
Lemma applyLoads_lookup (nativePLS : list nativePropertyLoadSaver) : ∀ loads nativePLS',
  applyLoads nativePLS loads = Some nativePLS' →
  length nativePLS' = length nativePLS ∧
  ∀ i npls, nativePLS !! i = Some npls →
    nativePLS' !! i =
      Some (match loads !! i with
            | Some (Some props) => (Load npls props).1
            | _ => npls
            end).
Proof.
  induction nativePLS as [|npls0 nativePLS IH]; intros loads nativePLS' Happly.
  - destruct loads as [|[props|] loads]; simpl in Happly; injection Happly as <-; done.
  - destruct loads as [|[props|] loads]; cbn [applyLoads] in Happly.
    + injection Happly as <-. split; [done|]. intros i npls Hi. by rewrite lookup_nil.
    + destruct (Load npls0 props) as [npls1 r] eqn:Hload.
      destruct (applyLoads nativePLS loads) as [rest|] eqn:Hrest;
        [|by destruct r].
      destruct (IH _ _ Hrest) as [Hlen Hlook].
      assert (nativePLS' = npls1 :: rest) as -> by (destruct r; simpl in Happly; congruence).
      split; [simpl; by rewrite Hlen|].
      intros [|i] npls Hi; simpl in *; [injection Hi as <-; by rewrite Hload | by apply Hlook].
    + destruct (applyLoads nativePLS loads) as [rest|] eqn:Hrest; [|done].
      destruct (IH _ _ Hrest) as [Hlen Hlook]. injection Happly as <-.
      split; [simpl; by rewrite Hlen|].
      intros [|i] npls Hi; simpl in *; [by injection Hi as <- | by apply Hlook].
Qed.

(** X12: when the backend answers GetMulti without error, the callback (if
    it accepts) is invoked once per key, in key order, without error, with
    the property map loaded for that index: the map the backend's Load built
    from nothing, or a nil map for an index the backend did not load. *)
Theorem GetMulti_success (keys : list Key)
    (cb : PropertyMap → error → W → error * W) (s : State W)
    (loads : list (option (list NativeProperty))) (w1 : W)
    (nativePLS : list nativePropertyLoadSaver) :
  getMultiCall client bds (gaeKeysToNative bds keys) (world s) = ((loads, None), w1) →
  applyLoads (map (fun _ => mkNPLS bds None) (gaeKeysToNative bds keys)) loads
    = Some nativePLS →
  (∀ pm err w, (cb pm err w).1 = None) →
  length nativePLS = length keys ∧
  (∀ i, (i < length keys)%nat →
     nativePLS !! i =
       Some (match loads !! i with
             | Some (Some props) => (Load (mkNPLS bds None) props).1
             | _ => mkNPLS bds None
             end)) ∧
  ∃ w, GetMulti client bds keys cb s =
         Returns None
           (mkState w (trace s ++
              CallGetMulti (transaction bds) (gaeKeysToNative bds keys) ::
              map (fun npls => CbGetMulti (pmap npls) None) nativePLS)).
Proof.
  intros Hans Hloads Hcb.
  destruct (applyLoads_lookup _ _ _ Hloads) as [Hlen Hlook].
  rewrite !length_map in Hlen. unfold gaeKeysToNative in Hlen. rewrite length_map in Hlen.
  split; [exact Hlen|]. split.
  - intros i Hi. apply Hlook.
    apply list_lookup_fmap_Some. 
    destruct (lookup_lt_is_Some_2 (gaeKeysToNative bds keys) i) as [nk Hnk].
    { unfold gaeKeysToNative. rewrite length_map. exact Hi. }
    eauto.
  - unfold GetMulti. unfold bind at 1. unfold emit at 1. unfold bind at 1.
    unfold outside at 1. cbn [world trace]. rewrite Hans. cbn iota. rewrite Hloads.
    cbn [idxCallbacker].
    destruct (forEachIndex_reports (getCallback nativePLS cb) (getEvent nativePLS)
                (length nativePLS) 0
                (mkState w1 (trace s ++ [CallGetMulti (transaction bds)
                                           (gaeKeysToNative bds keys)]))) as [w Hw].
    { intros j Hj. by apply getCallback_reports. }
    exists w. rewrite Hw. cbn [trace]. rewrite <- app_assoc. do 4 f_equal.
    apply (map_seq_lookup
             (fun o => CbGetMulti (match o with Some npls => pmap npls | None => None end)
                                  None)).
Qed.

(** X13: when the backend answers GetMulti with an aggregate error that has
    at most one entry per key, the callback (if it accepts) is invoked once
    per entry, in index order, with the property map of that index and the
    entry's normalised error: a missing entity is reported as the abstract
    not-found error at its own index, the others keep their place. *)
Theorem GetMulti_aggregate (keys : list Key)
    (cb : PropertyMap → error → W → error * W) (s : State W)
    (loads : list (option (list NativeProperty))) (w1 : W)
    (nativePLS : list nativePropertyLoadSaver) (ty : MultiErrorType) (me : list error) :
  getMultiCall client bds (gaeKeysToNative bds keys) (world s)
    = ((loads, Some (MultiError ty me)), w1) →
  applyLoads (map (fun _ => mkNPLS bds None) (gaeKeysToNative bds keys)) loads
    = Some nativePLS →
  (length me ≤ length keys)%nat →
  (∀ pm err w, (cb pm err w).1 = None) →
  ∃ w, GetMulti client bds keys cb s =
         Returns None
           (mkState w (trace s ++
              CallGetMulti (transaction bds) (gaeKeysToNative bds keys) ::
              imap (fun i err => getEvent nativePLS i (normalizeError err)) me)).
Proof.
  intros Hans Hloads Hme Hcb.
  destruct (applyLoads_lookup _ _ _ Hloads) as [Hlen _].
  rewrite !length_map in Hlen. unfold gaeKeysToNative in Hlen. rewrite length_map in Hlen.
  unfold GetMulti. unfold bind at 1. unfold emit at 1. unfold bind at 1.
  unfold outside at 1. cbn [world trace]. rewrite Hans. cbn iota. rewrite Hloads.
  rewrite idxCallbacker_aggregate.
  destruct (forEachError_reports (getCallback nativePLS cb) (getEvent nativePLS) me 0
              (mkState w1 (trace s ++ [CallGetMulti (transaction bds)
                                         (gaeKeysToNative bds keys)]))) as [w Hw].
  { intros j err Hj. apply getCallback_reports; [|done].
    apply lookup_lt_Some in Hj. unfold error in *. simpl. lia. }
  exists w. rewrite Hw. cbn [trace]. by rewrite <- app_assoc.
Qed.

(** X14: when the backend answers DeleteMulti without error, the callback
    (if it accepts) is invoked once per key with no error; when it answers
    with an aggregate error, once per entry, in order, with the entry's
    normalised error. The backend call is the transaction's when the adapter
    is bound to one. *)
Theorem DeleteMulti_per_index (keys : list Key) (cb : error → W → error * W)
    (s : State W) (err : error) (w1 : W) :
  deleteMultiCall client bds (gaeKeysToNative bds keys) (world s) = (err, w1) →
  (∀ err w, (cb err w).1 = None) →
  (err = None →
   ∃ w, DeleteMulti client bds keys cb s =
          Returns None
            (mkState w (trace s ++
               CallDeleteMulti (transaction bds) (gaeKeysToNative bds keys) ::
               replicate (length keys) (CbDeleteMulti None)))) ∧
  (∀ ty me, err = Some (MultiError ty me) →
   ∃ w, DeleteMulti client bds keys cb s =
          Returns None
            (mkState w (trace s ++
               CallDeleteMulti (transaction bds) (gaeKeysToNative bds keys) ::
               map (fun e => CbDeleteMulti (normalizeError e)) me))).
Proof.
  intros Hans Hcb.
  assert (Hrun : DeleteMulti client bds keys cb s =
            idxCallbacker err (length (gaeKeysToNative bds keys)) (deleteCallback cb)
              (mkState w1 (trace s ++ [CallDeleteMulti (transaction bds)
                                         (gaeKeysToNative bds keys)]))).
  { unfold DeleteMulti. unfold bind at 1. unfold emit at 1. unfold bind at 1.
    unfold outside at 1. cbn [world trace]. by rewrite Hans. }
  rewrite Hrun. split.
  - intros ->. cbn [idxCallbacker].
    destruct (forEachIndex_reports (deleteCallback cb) (fun _ e => CbDeleteMulti e)
                (length (gaeKeysToNative bds keys)) 0
                (mkState w1 (trace s ++ [CallDeleteMulti (transaction bds)
                                           (gaeKeysToNative bds keys)]))) as [w Hw].
    { intros j Hj. by apply deleteCallback_reports. }
    exists w. rewrite Hw. cbn [trace]. rewrite <- app_assoc. do 4 f_equal.
    unfold gaeKeysToNative. rewrite length_map.
    generalize 0%nat. induction (length keys) as [|n IH]; intros i; [done|].
    simpl. f_equal. apply IH.
  - intros ty me ->. rewrite idxCallbacker_aggregate.
    destruct (forEachError_reports (deleteCallback cb) (fun _ e => CbDeleteMulti e) me 0
                (mkState w1 (trace s ++ [CallDeleteMulti (transaction bds)
                                           (gaeKeysToNative bds keys)]))) as [w Hw].
    { intros j e Hj. by apply deleteCallback_reports. }
    exists w. rewrite Hw. cbn [trace]. rewrite <- app_assoc. do 4 f_equal.
    apply imap_const.
Qed.

End MoreBatch.

Section MorePut.

Context {W : Type} (client : Client W).
Variable bds : boundDatastore.
Implicit Types s : State W.

(** X15: outside a transaction PutMulti sends the native forms of the keys
    as they are, incomplete ones included, in one backend call and never asks
    the backend to allocate identifiers; when the backend answers without
    error, the callback (if it accepts) is invoked once per key the backend
    returned, in order, with that key decoded and no error. *)
Theorem PutMulti_outside_transaction (keys : list Key) (vals : list PropertyMap)
    (cb : option Key → error → W → error * W) (s : State W)
    (returned : list (option NativeKey)) (w1 : W) :
  transaction bds = None →
  client_PutMulti client (gaeKeysToNative bds keys) (map (mkNPLS bds) vals) (world s)
    = ((returned, None), w1) →
  Forall is_Some returned →
  (∀ k err w, (cb k err w).1 = None) →
  ∃ decodedKeys w,
    nativeKeysToGAE bds returned = Some decodedKeys ∧
    length decodedKeys = length returned ∧
    PutMulti client bds keys vals cb s =
      Returns None
        (mkState w (trace s ++
           CallPutMulti None (gaeKeysToNative bds keys) (map (mkNPLS bds) vals) ::
           map (fun k => CbNewKey (Some k) None) decodedKeys)).
Proof.
  intros Htx Hans Hsome Hcb.
  destruct (nativeKeysToGAE_Some bds returned Hsome) as (decodedKeys & Hdec & Hlen & Hj).
  destruct (put_callbacks_success bds cb returned decodedKeys
              (mkState w1 (trace s ++ [CallPutMulti None (gaeKeysToNative bds keys)
                                         (map (mkNPLS bds) vals)])) Hj Hlen Hcb)
    as [w Hw].
  exists decodedKeys, w. split; [done|]. split; [done|].
  unfold PutMulti. rewrite Htx.
  unfold bind at 1. unfold emit at 1. unfold bind at 1. unfold outside at 1.
  cbn [world trace]. rewrite Hans. cbn beta iota. rewrite Hw.
  cbn [trace]. by rewrite <- app_assoc.
Qed.

(** X16: in a transaction, when the allocation of identifiers for the
    incomplete keys fails, PutMulti returns the backend's error as it is (not
    normalised), makes no write call and invokes no callback. *)
Theorem PutMulti_allocation_fails (tx : Transaction) (keys : list Key)
    (vals : list PropertyMap) (cb : option Key → error → W → error * W)
    (s : State W) (idKeys : list (option NativeKey)) (e : Error) (w1 : W) :
  transaction bds = Some tx →
  Forall (fun k => k_toks k ≠ []) keys →
  incompleteSubset (gaeKeysToNative bds keys) ≠ [] →
  client_AllocateIDs client (incompleteSubset (gaeKeysToNative bds keys)) (world s)
    = ((idKeys, Some e), w1) →
  PutMulti client bds keys vals cb s =
    Returns (Some e)
      (mkState w1 (trace s ++
         [CallAllocateIDs (incompleteSubset (gaeKeysToNative bds keys))])).
Proof.
  intros Htx Hwf Hmix Halloc.
  pose proof (gaeKeysToNative_is_Some bds keys Hwf) as Hsome.
  unfold PutMulti. rewrite Htx, (findIncomplete_spec _ 0 [] ∅ Hsome). cbn [app].
  destruct (incompleteSubset (gaeKeysToNative bds keys)) as [|nk0 inc] eqn:Hinc; [done|].
  cbn [length Nat.ltb Nat.leb].
  unfold bind at 1. unfold emit at 1. unfold bind at 1. unfold outside at 1.
  cbn [world trace]. by rewrite Halloc.
Qed.

Lemma leafComplete_toks (k : Key) : leafComplete k = true → k_toks k ≠ [].
Proof. unfold leafComplete. by destruct (k_toks k). Qed.

Lemma incompleteSubset_complete (keys : list Key) :
  Forall (fun k => leafComplete k = true) keys →
  incompleteSubset (gaeKeysToNative bds keys) = [].
Proof.
  unfold gaeKeysToNative. induction 1 as [|k keys Hk _ IH]; [done|].
  destruct (gaeKeyToNative_Incomplete bds k (leafComplete_toks k Hk)) as (nk & Hnk & Hinc).
  simpl. rewrite Hnk, Hinc, Hk. simpl. exact IH.
Qed.

(** X17: in a transaction, when every key of the batch has an identifier at
    its leaf, PutMulti allocates nothing: its only backend call is the
    transactional write of the native forms of the keys, unchanged, and on
    success the callback (if it accepts) receives, in order, each input key in
    the adapter's scope. *)
Theorem PutMulti_complete_keys (tx : Transaction) (keys : list Key)
    (vals : list PropertyMap) (cb : option Key → error → W → error * W)
    (s : State W) (w1 : W) :
  transaction bds = Some tx →
  Forall (fun k => leafComplete k = true) keys →
  tx_PutMulti client tx (gaeKeysToNative bds keys) (map (mkNPLS bds) vals) (world s)
    = (None, w1) →
  (∀ k err w, (cb k err w).1 = None) →
  ∃ w, PutMulti client bds keys vals cb s =
         Returns None
           (mkState w (trace s ++
              CallPutMulti (Some tx) (gaeKeysToNative bds keys) (map (mkNPLS bds) vals) ::
              map (fun k => CbNewKey (Some (rescope bds k)) None) keys)).
Proof.
  intros Htx Hall Hput Hcb.
  assert (Hwf : Forall (fun k => k_toks k ≠ []) keys).
  { eapply Forall_impl; [exact Hall|]. apply leafComplete_toks. }
  pose proof (gaeKeysToNative_is_Some bds keys Hwf) as Hsome.
  pose proof (nativeKeysToGAE_gaeKeysToNative bds keys Hwf) as Hdec.
  destruct (nativeKeysToGAE_Some bds _ Hsome) as (decodedKeys & Hdec' & Hlen & Hj).
  rewrite Hdec in Hdec'. injection Hdec' as <-.
  destruct (put_callbacks_success bds cb (gaeKeysToNative bds keys) (map (rescope bds) keys)
              (mkState w1 (trace s ++ [CallPutMulti (Some tx) (gaeKeysToNative bds keys)
                                         (map (mkNPLS bds) vals)])) Hj Hlen Hcb)
    as [w Hw].
  exists w. unfold PutMulti.
  rewrite Htx, (findIncomplete_spec _ 0 [] ∅ Hsome), (incompleteSubset_complete keys Hall).
  cbn [app length Nat.ltb Nat.leb].
  unfold bind at 1. unfold emit at 1. unfold bind at 1. unfold outside at 1.
  cbn [world trace]. rewrite Hput. cbn beta iota. rewrite Hw.
  cbn [trace]. rewrite <- app_assoc, map_map. done.
Qed.

(** The aggregate branch of the sequencer stops at the first entry whose
    callback returns an error. *)
Lemma forEachError_rejected (cb : nat → error → M W error) ev me : ∀ i k err r s,
  me !! k = Some err →
  (∀ j e, (j < k)%nat → me !! j = Some e → reports cb ev (i + j) (normalizeError e)) →
  (∀ s0 : State W, ∃ w,
     cb (i + k)%nat (normalizeError err) s0 =
       Returns (Some r) (mkState w (trace s0 ++ [ev (i + k)%nat (normalizeError err)]))) →
  ∃ w, forEachError cb i me s =
         Returns (Some r)
           (mkState w (trace s ++
              imap (fun j e => ev (i + j)%nat (normalizeError e)) (take (S k) me))).
Proof.
  induction me as [|e0 me IH]; intros i k err r s Hk Hbefore Hrej; [done|].
  destruct k as [|k].
  - injection Hk as ->. destruct (Hrej s) as [w Hw]. rewrite Nat.add_0_r in Hw.
    exists w. cbn [forEachError]. unfold bind. rewrite Hw. unfold ret.
    cbn [take imap]. by rewrite Nat.add_0_r.
  - destruct (Hbefore 0%nat e0 ltac:(lia) eq_refl s) as [w1 Hw1].
    rewrite Nat.add_0_r in Hw1.
    destruct (IH (S i) k err r (mkState w1 (trace s ++ [ev i (normalizeError e0)])))
      as [w Hw].
    + exact Hk.
    + intros j e Hj He. replace (S i + j)%nat with (i + S j)%nat by lia.
      apply Hbefore; [lia | exact He].
    + intros s0. replace (S i + k)%nat with (i + S k)%nat by lia. apply Hrej.
    + exists w. cbn [forEachError]. unfold bind at 1. rewrite Hw1, Hw.
      cbn [trace]. rewrite <- app_assoc. cbn [take imap app]. rewrite Nat.add_0_r.
      do 4 f_equal. apply imap_ext. intros j e _. simpl. f_equal. lia.
Qed.

(** X18: when the backend answers DeleteMulti with an aggregate error and
    the callback returns an error for some entry, the batch stops there: the
    callback has been invoked for the entries up to that one, in order, it is
    not invoked for the later ones, and DeleteMulti returns the callback's
    error as it is. *)
Theorem DeleteMulti_callback_rejects (keys : list Key) (cb : error → W → error * W)
    (verdict : error → error) (s : State W) (ty : MultiErrorType) (me : list error)
    (w1 : W) (k : nat) (err : error) (r : Error) :
  deleteMultiCall client bds (gaeKeysToNative bds keys) (world s)
    = (Some (MultiError ty me), w1) →
  decidesBy cb verdict →
  me !! k = Some err →
  verdict (normalizeError err) = Some r →
  (∀ j e, (j < k)%nat → me !! j = Some e → verdict (normalizeError e) = None) →
  ∃ w, DeleteMulti client bds keys cb s =
         Returns (Some r)
           (mkState w (trace s ++
              CallDeleteMulti (transaction bds) (gaeKeysToNative bds keys) ::
              map (fun e => CbDeleteMulti (normalizeError e)) (take (S k) me))).
Proof.
  intros Hans Hcb Hk Hrej Hbefore.
  destruct (forEachError_rejected (deleteCallback cb) (fun _ e => CbDeleteMulti e) me
              0 k err r
              (mkState w1 (trace s ++ [CallDeleteMulti (transaction bds)
                                         (gaeKeysToNative bds keys)])) Hk) as [w Hw].
  - intros j e Hj He s0. unfold deleteCallback, bind, emit, outside. cbn [world trace].
    pose proof (Hcb (normalizeError e) (world s0)) as Hv.
    rewrite (Hbefore j e Hj He) in Hv.
    destruct (cb (normalizeError e) (world s0)) as [x w]. simpl in Hv. subst x.
    by exists w.
  - intros s0. unfold deleteCallback, bind, emit, outside. cbn [world trace].
    pose proof (Hcb (normalizeError err) (world s0)) as Hv. rewrite Hrej in Hv.
    destruct (cb (normalizeError err) (world s0)) as [x w]. simpl in Hv. subst x.
    by exists w.
  - exists w. unfold DeleteMulti. unfold bind at 1. unfold emit at 1. unfold bind at 1.
    unfold outside at 1. cbn [world trace]. rewrite Hans. cbn beta iota.
    rewrite idxCallbacker_aggregate, Hw. cbn [trace]. rewrite <- app_assoc.
    do 4 f_equal. apply imap_const.
Qed.

End MorePut.

(** ** Transactions and scopes *)

Section MoreTransactions.

Context {W : Type} (client : Client W).
Variables (bds : boundDatastore) (fn : Context → W → error * W).

Lemma normalizeError_idempotent (err : error) :
  normalizeError (normalizeError err) = normalizeError err.
Proof. by destruct err as [[]|]. Qed.

(** Whatever the backend answers, the retry loop returns after at most n
    backend calls, and with the conflict sentinel only after all n. *)
Lemma attemptLoop_bounded n : ∀ s : State W,
  ∃ k r w,
    attemptLoop client bds fn n s =
      Returns r (mkState w (trace s ++ replicate k CallRunInTransaction)) ∧
    (k ≤ n)%nat ∧ (n = 0%nat ∨ 1 ≤ k)%nat ∧
    normalizeError r = r ∧
    (r = Some ErrConcurrentTransaction → k = n).
Proof.
  induction n as [|n IH]; intros s.
  - exists 0%nat, (Some ErrConcurrentTransaction), (world s). simpl. unfold ret.
    rewrite app_nil_r. destruct s. repeat split; auto.
  - rewrite attemptLoop_step. cbv zeta.
    destruct (isErrConcurrentTransaction
                (normalizeError (attempt client bds fn (world s)).1)) eqn:Hc.
    + destruct (IH (mkState (attempt client bds fn (world s)).2
                            (trace s ++ [CallRunInTransaction])))
        as (k & r & w & Hrun & Hk & _ & Hnorm & Himp).
      exists (S k), r, w. rewrite Hrun. cbn [trace]. rewrite <- app_assoc.
      split; [done|]. split; [lia|]. split; [right; lia|]. split; [done|].
      intros Hr. by rewrite (Himp Hr).
    + exists 1%nat, (normalizeError (attempt client bds fn (world s)).1),
             (attempt client bds fn (world s)).2.
      split; [done|]. split; [lia|]. split; [right; lia|].
      split; [apply normalizeError_idempotent|].
      intros Hr. rewrite Hr in Hc. discriminate.
Qed.

(** X19: on a scope without a transaction and without the cross-group
    option, RunInTransaction always returns and never faults; whatever the
    backend and the body do, it makes at least one and at most n backend
    transaction calls (n the attempt bound) and nothing else; its result is
    normalised; and it returns the concurrent-transaction-conflict sentinel
    only after all n attempts. *)
Theorem RunInTransaction_bounded (opts : option TransactionOptions) (s : State W) :
  transaction bds = None →
  (∀ o, opts = Some o → XG o = false) →
  ∃ k r w,
    RunInTransaction client bds fn opts s =
      Returns r (mkState w (trace s ++ replicate k CallRunInTransaction)) ∧
    (1 ≤ k ≤ attemptBound opts)%nat ∧
    normalizeError r = r ∧
    (r = Some ErrConcurrentTransaction → k = attemptBound opts).
Proof.
  intros Htx Hxg. rewrite (RunInTransaction_loop client bds fn opts Htx Hxg).
  destruct (attemptLoop_bounded (attemptBound opts) s)
    as (k & r & w & Hrun & Hk & Hpos & Hnorm & Himp).
  exists k, r, w. split; [done|]. split; [|done].
  pose proof (attemptBound_positive opts). lia.
Qed.

(** X20: a datastore that use binds, asking for the transaction, to the
    context a transaction body receives carries that transaction: starting a
    transaction on it is rejected as nested, without any backend call. Bound
    without asking for the transaction, it carries none. In both cases its
    keys get the namespace of the info service when one is set, else the
    namespace of the enclosing datastore. *)
Theorem use_in_transaction_body (inf : Context → InfoService) (tx : Transaction)
    (opts : option TransactionOptions) (s : State W) :
  let c := withDatastoreTransaction bds tx in
  transaction (use inf c true) = Some tx ∧
  transaction (use inf c false) = None ∧
  RunInTransaction client (use inf c true) fn opts s
    = Returns (Some (ErrorsNew "nested transactions are not supported")) s ∧
  ∀ wantTxn,
    appID (use inf c wantTxn) = inf_FullyQualifiedAppID (inf c) ∧
    ctxNamespace (use inf c wantTxn) =
      (if (inf_GetNamespace (inf c)).2 then (inf_GetNamespace (inf c)).1
       else ctxNamespace bds).
Proof.
  intros c. unfold use.
  destruct (inf_GetNamespace (inf c)) as [ns [|]] eqn:Hns; cbn [fst snd].
  - repeat split; done.
  - repeat split; done.
Qed.

End MoreTransactions.

(** ** Queries *)

Section MoreQueries.

Context {W : Type} (client : Client W).
Variable bds : boundDatastore.
Implicit Types (s : State W) (cb : Key → PropertyMap → W → error * W).

Local Arguments Load : simpl never.

Lemma decodedItem_Some item key pm :
  decodedItem bds item = Some (key, pm) →
  ∃ nativeKey props npls,
    item = ItEntity nativeKey props ∧
    Load (mkNPLS bds None) props = (npls, Ok tt) ∧
    nativeKeyToGAE bds nativeKey = Some key ∧ pm = pmap npls.
Proof.
  destruct item as [nativeKey props|e]; [|done]. unfold decodedItem.
  destruct (Load (mkNPLS bds None) props) as [npls [[]| |]] eqn:Hload; try done.
  destruct (nativeKeyToGAE bds nativeKey) as [key'|] eqn:Hkey; [|done].
  intros [= <- <-]. by exists nativeKey, props, npls.
Qed.

Lemma runEvents_cons item items key pm :
  decodedItem bds item = Some (key, pm) →
  runEvents bds (item :: items) = CbRawRun key pm :: runEvents bds items.
Proof.
  intros H. unfold runEvents.
  change (omap ?f (item :: items)) with
    (match f item with Some y => y :: omap f items | None => omap f items end).
  cbn beta. by rewrite H.
Qed.

Lemma runEvents_app items items' :
  runEvents bds (items ++ items') = runEvents bds items ++ runEvents bds items'.
Proof. apply omap_app. Qed.

(** The loop of a query that is not keys-only passes over the results the
    callback continues on, invoking it once for each, in order. *)
Lemma runLoop_continues q nq cb verdict good tail : ∀ s,
  fq_KeysOnly q = false → nq_keysOnly nq = false →
  runDecidesBy cb verdict →
  Forall (continues bds verdict) good →
  ∃ w, runLoop bds q nq cb (good ++ tail) s =
         runLoop bds q nq cb tail
           (mkState w (trace s ++ flat_map (fun ev => [CallNext; ev]) (runEvents bds good))).
Proof.
  induction good as [|item good IH]; intros s Hq Hnq Hcb Hgood.
  - exists (world s). simpl. rewrite app_nil_r. by destruct s.
  - apply Forall_cons in Hgood as [(key & pm & Hitem & Hv) Hgood].
    pose proof (runEvents_cons item good key pm Hitem) as Hev.
    destruct (decodedItem_Some _ _ _ Hitem) as (nativeKey & props & npls & -> & Hl & Hk & ->).
    rewrite <- app_comm_cons.
    rewrite (runLoop_entity bds q nq cb nativeKey props _ s npls key Hq Hnq Hl Hk).
    cbv zeta. rewrite (Hcb key (pmap npls) (world s)), Hv.
    destruct (IH (mkState (cb key (pmap npls) (world s)).2
                          (trace s ++ [CallNext; CbRawRun key (pmap npls)]))
                 Hq Hnq Hcb Hgood) as [w Hw].
    exists w. rewrite Hw. cbn [trace]. rewrite <- app_assoc.
    by rewrite Hev.
Qed.

Lemma callbacks_runEvents (evs : list Event) :
  Forall (fun ev => isCallback ev = true) evs →
  callbacks (flat_map (fun ev => [CallNext; ev]) evs) = evs.
Proof.
  induction 1 as [|ev evs Hev _ IH]; [done|].
  cbn [flat_map app]. unfold callbacks in *. cbn [List.filter isCallback].
  rewrite Hev. by rewrite IH.
Qed.

Lemma runEvents_callbacks items :
  Forall (fun ev => isCallback ev = true) (runEvents bds items).
Proof.
  induction items as [|item items IH]; [constructor|].
  destruct (decodedItem bds item) as [[key pm]|] eqn:Hitem.
  - rewrite (runEvents_cons _ _ _ _ Hitem). by constructor.
  - unfold runEvents in *.
    change (omap ?f (item :: items)) with
      (match f item with Some y => y :: omap f items | None => omap f items end).
    cbn beta. by rewrite Hitem.
Qed.

(** X21: for a query that is not keys-only and a callback that continues on
    the first results, Run invokes the callback once for each of them, in
    order, with the decoded key and the loaded map, and then ends with what
    the iterator answers next: nil at the end of results or on Done, else the
    iterator's error, normalised. Results after an iterator error are never
    fetched. *)
Theorem Run_until_iterator_ends (q : FinalizedQuery) cb
    (verdict : Key → PropertyMap → error) (s : State W)
    (good tail : Iterator) (w1 : W) :
  fq_KeysOnly q = false →
  client_Run client (prepareNativeQuery bds q) (world s) = (good ++ tail, w1) →
  runDecidesBy cb verdict →
  Forall (continues bds verdict) good →
  tail = [] ∨ (∃ e rest, tail = ItError e :: rest) →
  ∃ s', Run client bds q cb s = Returns (iteratorVerdict tail) s' ∧
        callbacks (trace s') = callbacks (trace s) ++ runEvents bds good ∧
        length (runEvents bds good) = length good.
Proof.
  intros Hq Hans Hcb Hgood Htail.
  destruct (runLoop_continues q (prepareNativeQuery bds q) cb verdict good tail
              (mkState w1 (trace s ++ [CallRun (prepareNativeQuery bds q)]))
              Hq Hq Hcb Hgood) as [w Hw].
  assert (Hlen : length (runEvents bds good) = length good).
  { clear -Hgood. induction Hgood as [|item good (key & pm & Hi & _) _ IH]; [done|].
    rewrite (runEvents_cons _ _ _ _ Hi). simpl. by rewrite IH. }
  assert (Hrun : Run client bds q cb s =
            runLoop bds q (prepareNativeQuery bds q) cb tail
              (mkState w (trace s ++ [CallRun (prepareNativeQuery bds q)] ++
                 flat_map (fun ev => [CallNext; ev]) (runEvents bds good)))).
  { unfold Run. unfold bind at 1. unfold emit at 1. unfold bind at 1.
    unfold outside at 1. cbn [world trace]. rewrite Hans. cbn beta iota.
    rewrite Hw. cbn [trace]. by rewrite <- app_assoc. }
  rewrite Hrun.
  assert (Hcbs : ∀ extra, Forall (fun ev => isCallback ev = false) extra →
            callbacks ((trace s ++ [CallRun (prepareNativeQuery bds q)] ++
                        flat_map (fun ev => [CallNext; ev]) (runEvents bds good)) ++ extra)
            = callbacks (trace s) ++ runEvents bds good).
  { intros extra Hextra. rewrite !callbacks_app.
    rewrite (callbacks_runEvents _ (runEvents_callbacks good)).
    assert (callbacks extra = []) as ->.
    { clear -Hextra. induction Hextra as [|ev extra Hev _ IH]; [done|].
      unfold callbacks in *. cbn [List.filter]. by rewrite Hev. }
    cbn. by rewrite app_nil_r. }
  destruct Htail as [->|(e & rest & ->)].
  - eexists. split; [apply runLoop_end_of_results|]. split; [|done].
    cbn [trace]. apply Hcbs. by repeat constructor.
  - cbn [runLoop iteratorVerdict]. unfold bind, emit. cbn [world trace].
    destruct (isDone e); (eexists; split; [reflexivity|]; split; [|done]);
      cbn [trace]; apply Hcbs; by repeat constructor.
Qed.

(** X22: for a query that is not keys-only, at the first result on which
    the callback returns an error the iteration halts: Run returns nil when
    the error is the stop sentinel and the normalised error otherwise, the
    callback has been invoked for the results up to that one, in order, and no
    further result is fetched. *)
Theorem Run_callback_halts (q : FinalizedQuery) cb
    (verdict : Key → PropertyMap → error) (s : State W)
    (good rest : Iterator) (item : IterItem) (key : Key) (pm : PropertyMap)
    (e : Error) (w1 : W) :
  fq_KeysOnly q = false →
  client_Run client (prepareNativeQuery bds q) (world s) = (good ++ item :: rest, w1) →
  runDecidesBy cb verdict →
  Forall (continues bds verdict) good →
  decodedItem bds item = Some (key, pm) →
  verdict key pm = Some e →
  ∃ w, Run client bds q cb s =
         Returns (if isStop e then None else normalizeError (Some e))
           (mkState w (trace s ++ CallRun (prepareNativeQuery bds q) ::
                         flat_map (fun ev => [CallNext; ev])
                                  (runEvents bds (good ++ [item])))).
Proof.
  intros Hq Hans Hcb Hgood Hitem Hv.
  destruct (runLoop_continues q (prepareNativeQuery bds q) cb verdict good (item :: rest)
              (mkState w1 (trace s ++ [CallRun (prepareNativeQuery bds q)]))
              Hq Hq Hcb Hgood) as [w Hw].
  pose proof (runEvents_cons item [] key pm Hitem) as Hev.
  destruct (decodedItem_Some _ _ _ Hitem) as (nativeKey & props & npls & -> & Hl & Hk & ->).
  exists (cb key (pmap npls) w).2.
  unfold Run. unfold bind at 1. unfold emit at 1. unfold bind at 1.
  unfold outside at 1. cbn [world trace]. rewrite Hans. cbn beta iota.
  rewrite Hw.
  rewrite (runLoop_entity bds q (prepareNativeQuery bds q) cb nativeKey props rest _ npls key
             Hq Hq Hl Hk).
  cbv zeta. cbn [world trace]. rewrite (Hcb key (pmap npls) w), Hv.
  rewrite runEvents_app, flat_map_app, Hev.
  destruct (isStop e); cbn [fst snd]; by rewrite <- !app_assoc.
Qed.

End MoreQueries.

Section MoreCompile.

Variable bds : boundDatastore.




End MoreCompile.

(** X24: normalising an error twice is normalising it once; the result is
    nil exactly when the error is nil; and the result is never one of the
    three backend sentinels (no such entity, concurrent transaction, invalid
    key), which are replaced by the abstract ones. *)
Theorem normalizeError_sentinels (err : error) :
  normalizeError (normalizeError err) = normalizeError err ∧
  (normalizeError err = None ↔ err = None) ∧
  normalizeError err ≠ Some NativeErrNoSuchEntity ∧
  normalizeError err ≠ Some NativeErrConcurrentTransaction ∧
  normalizeError err ≠ Some NativeErrInvalidKey.
Proof. destruct err as [[]|]; repeat split; try done; intros [=]. Qed.

(** ** The in-memory info service *)

(** X25: Namespace accepts a name exactly when it passes validNamespace
    (the empty name included). On success the new context reports the name as
    set, and the application id, version id and request id of the context it
    was made from; the context it was made from is not changed. On a name that
    does not pass, Namespace returns an error naming it and MustNamespace
    panics. *)
Theorem Namespace_effect (c : InfoContext) (ns : string) :
  (validNamespace ns = true →
   ∃ c', Namespace c ns = inr c' ∧ MustNamespace c ns = Some c' ∧
         GetNamespace c' = (ns, true) ∧
         AppID c' = AppID c ∧ FullyQualifiedAppID c' = FullyQualifiedAppID c ∧
         VersionID c' = VersionID c ∧ RequestID c' = RequestID c) ∧
  (validNamespace ns = false →
   Namespace c ns = inl (ErrNamespaceMismatch ns) ∧ MustNamespace c ns = None) ∧
  validNamespace "" = true ∧
  GetNamespace None = ("", false).
Proof.
  unfold MustNamespace, Namespace. split; [|split; [|split]]; try done.
  - intros ->. eexists. repeat split.
  - by intros ->.
Qed.

(** X26: the setters of the info service are independent: setting the
    version id, the request id and a valid namespace in any order gives the
    same context, and each value set is the one read back. *)
Theorem info_setters_commute (c : InfoContext) (v r ns : string) :
  validNamespace ns = true →
  ∃ c1 c2 c3,
    Namespace (SetRequestID (SetVersionID c v) r) ns = inr c1 ∧
    Namespace c ns = inr c2 ∧ SetVersionID (SetRequestID c2 r) v = c1 ∧
    Namespace (SetRequestID c r) ns = inr c3 ∧ SetVersionID c3 v = c1 ∧
    VersionID c1 = v ∧ RequestID c1 = r ∧ GetNamespace c1 = (ns, true) ∧
    AppID c1 = AppID c.
Proof.
  intros Hns. unfold Namespace. rewrite Hns.
  eexists _, _, _. repeat split.
Qed.

Section NamespaceReachesKeys.

(** X27: a namespace set through the in-memory info service reaches the
    backend keys: a datastore that use binds on a context whose info service
    reports the name set by Namespace gives that name to every key it encodes
    and to all the ancestors of the key; when no namespace was ever set, the
    keys get the namespace of the context instead. *)
Theorem namespace_reaches_keys (c : InfoContext) (ic : Context) (ns : string)
    (wantTxn : bool) (k : Key) :
  validNamespace ns = true →
  k_toks k ≠ [] →
  (∃ c' nk, Namespace c ns = inr c' ∧
            gaeKeyToNative (use (fun _ => memoryInfo c') ic wantTxn) k = Some nk ∧
            inNamespace ns nk = true) ∧
  (∃ nk, gaeKeyToNative (use (fun _ => memoryInfo None) ic wantTxn) k = Some nk ∧
         inNamespace (ctx_namespace ic) nk = true).
Proof.
  intros Hns Hne. split.
  - unfold Namespace. rewrite Hns. eexists.
    set (bds := use _ ic wantTxn).
    destruct (gaeKeyToNative_Some bds k Hne) as (nk & Hnk & _).
    exists nk. split; [reflexivity|]. split; [exact Hnk|].
    apply (fold_nativeChild_inNamespace bds (k_toks k) None nk I Hnk).
  - set (bds := use _ ic wantTxn).
    destruct (gaeKeyToNative_Some bds k Hne) as (nk & Hnk & _).
    exists nk. split; [exact Hnk|].
    apply (fold_nativeChild_inNamespace bds (k_toks k) None nk I Hnk).
Qed.

End NamespaceReachesKeys.

(** ** Instances *)

Lemma namespace_reaches_keys_witness :
  ∃ c' nk, Namespace None "tenant-1" = inr c' ∧
           gaeKeyToNative (use (fun _ => memoryInfo c') (mkContext "" None) false)
                          (mkKey "app" "" [mkKeyTok "A" 1 ""; mkKeyTok "B" 2 ""]) = Some nk ∧
           inNamespace "tenant-1" nk = true.
Proof.
  destruct (namespace_reaches_keys None (mkContext "" None) "tenant-1" false
              (mkKey "app" "" [mkKeyTok "A" 1 ""; mkKeyTok "B" 2 ""])) as [H _].
  - reflexivity.
  - discriminate.
  - exact H.
Defined.

Lemma info_setters_commute_witness :
  ∃ c1, Namespace (SetRequestID (SetVersionID None "v2") "req") "ns" = inr c1 ∧
        VersionID c1 = "v2" ∧ RequestID c1 = "req" ∧ GetNamespace c1 = ("ns", true).
Proof.
  destruct (info_setters_commute None "v2" "req" "ns" eq_refl)
    as (c1 & c2 & c3 & H1 & _ & _ & _ & _ & Hv & Hr & Hn & _).
  by exists c1.
Defined.

Lemma AllocateIDs_outcomes_witness :
  let client := stubClient None (assignIDs 100) None [] in
  let bds := mkBDS "" "app" None in
  let keys := [mkKey "app" "" [mkKeyTok "A" 0 ""]; mkKey "app" "" [mkKeyTok "B" 0 ""]] in
  ∃ w, AllocateIDs client bds keys (fun _ _ w => (Some Stop, w)) (mkState 0%nat [])
       = Returns None
           (mkState w
              [CallAllocateIDs [mkNativeKey "A" "" 0 None ""; mkNativeKey "B" "" 0 None ""];
               CbNewKey (Some (mkKey "app" "" [mkKeyTok "A" 100 ""])) None;
               CbNewKey (Some (mkKey "app" "" [mkKeyTok "B" 101 ""])) None]).
Proof.
  intros client bds keys.
  destruct (AllocateIDs_outcomes client bds keys (fun _ _ w => (Some Stop, w))
              (mkState 0%nat [])) as (request & Hreq & Hout).
  - repeat constructor; discriminate.
  - destruct request as [|r1 [|r2 [|r3 request]]]; try discriminate Hreq.
    injection Hreq as -> ->.
    destruct (Hout _ _ _ eq_refl) as [_ Hok].
    destruct Hok as (decodedKeys & w & Hdec & _ & Hrun).
    + reflexivity.
    + repeat constructor; by eexists.
    + exists w. rewrite Hrun. vm_compute in Hdec. injection Hdec as <-. reflexivity.
Defined.

Lemma GetMulti_success_witness :
  let stored := [Some [mkNativeProperty "n" (NInt64 1) false]; None] in
  let client := storeClient stored None in
  let bds := mkBDS "" "app" None in
  let keys := [mkKey "app" "" [mkKeyTok "A" 1 ""]; mkKey "app" "" [mkKeyTok "A" 2 ""]] in
  ∃ w, GetMulti client bds keys (fun _ _ w => (None, w)) (mkState 0%nat [])
       = Returns None
           (mkState w
              [CallGetMulti None (gaeKeysToNative bds keys);
               CbGetMulti (Some {[ "n" := [mkProperty (VInt 1) ShouldIndex] ]}) None;
               CbGetMulti None None]).
Proof.
  intros stored client bds keys.
  destruct (GetMulti_success client bds keys (fun _ _ w => (None, w)) (mkState 0%nat [])
              stored 1%nat
              [mkLoadSaver bds (Some {[ "n" := [mkProperty (VInt 1) ShouldIndex] ]});
               mkLoadSaver bds None])
    as (_ & _ & w & Hrun).
  - reflexivity.
  - vm_compute. reflexivity.
  - reflexivity.
  - exists w. exact Hrun.
Defined.

Lemma GetMulti_aggregate_witness :
  let stored := [Some [mkNativeProperty "n" (NInt64 1) false]; None] in
  let me := [None; Some NativeErrNoSuchEntity] in
  let client := storeClient stored (Some (MultiError NativeMultiError me)) in
  let bds := mkBDS "" "app" None in
  let keys := [mkKey "app" "" [mkKeyTok "A" 1 ""]; mkKey "app" "" [mkKeyTok "A" 2 ""]] in
  ∃ w, GetMulti client bds keys (fun _ _ w => (None, w)) (mkState 0%nat [])
       = Returns None
           (mkState w
              [CallGetMulti None (gaeKeysToNative bds keys);
               CbGetMulti (Some {[ "n" := [mkProperty (VInt 1) ShouldIndex] ]}) None;
               CbGetMulti None (Some ErrNoSuchEntity)]).
Proof.
  intros stored me client bds keys.
  destruct (GetMulti_aggregate client bds keys (fun _ _ w => (None, w)) (mkState 0%nat [])
              stored 1%nat
              [mkLoadSaver bds (Some {[ "n" := [mkProperty (VInt 1) ShouldIndex] ]});
               mkLoadSaver bds None] NativeMultiError me)
    as (w & Hrun).
  - reflexivity.
  - vm_compute. reflexivity.
  - simpl. lia.
  - reflexivity.
  - exists w. exact Hrun.
Defined.

Lemma DeleteMulti_per_index_witness :
  let client := stubClient None (map Some) None [] in
  let bds := mkBDS "" "app" (Some 4%nat) in
  let keys := [mkKey "app" "" [mkKeyTok "A" 1 ""]; mkKey "app" "" [mkKeyTok "A" 2 ""]] in
  ∃ w, DeleteMulti client bds keys (fun _ w => (None, w)) (mkState 0%nat [])
       = Returns None
           (mkState w [CallDeleteMulti (Some 4%nat) (gaeKeysToNative bds keys);
                       CbDeleteMulti None; CbDeleteMulti None]).
Proof.
  intros client bds keys.
  destruct (DeleteMulti_per_index client bds keys (fun _ w => (None, w))
              (mkState 0%nat []) None 1%nat) as [Hok _].
  - reflexivity.
  - reflexivity.
  - exact (Hok eq_refl).
Defined.

Lemma PutMulti_outside_transaction_witness :
  let client := stubClient None (map Some) None [] in
  let bds := mkBDS "" "app" None in
  let keys := [mkKey "app" "" [mkKeyTok "A" 1 ""]; mkKey "app" "" [mkKeyTok "B" 0 "b"]] in
  ∃ w, PutMulti client bds keys [None; None] (fun _ _ w => (None, w)) (mkState 0%nat [])
       = Returns None
           (mkState w
              [CallPutMulti None (gaeKeysToNative bds keys) (map (mkNPLS bds) [None; None]);
               CbNewKey (Some (mkKey "app" "" [mkKeyTok "A" 1 ""])) None;
               CbNewKey (Some (mkKey "app" "" [mkKeyTok "B" 0 "b"])) None]).
Proof.
  intros client bds keys.
  destruct (PutMulti_outside_transaction client bds keys [None; None]
              (fun _ _ w => (None, w)) (mkState 0%nat [])
              (gaeKeysToNative bds keys) 1%nat)
    as (decodedKeys & w & Hdec & _ & Hrun).
  - reflexivity.
  - reflexivity.
  - repeat constructor; by eexists.
  - reflexivity.
  - exists w. rewrite Hrun. vm_compute in Hdec. injection Hdec as <-. reflexivity.
Defined.

Lemma PutMulti_allocation_fails_witness :
  let client := failingAllocClient NativeErrInvalidKey in
  let bds := mkBDS "" "app" (Some 1%nat) in
  let keys := [mkKey "app" "" [mkKeyTok "A" 1 ""]; mkKey "app" "" [mkKeyTok "B" 0 ""]] in
  PutMulti client bds keys [None; None] (fun _ _ w => (None, w)) (mkState 0%nat [])
  = Returns (Some NativeErrInvalidKey)
      (mkState 1%nat [CallAllocateIDs [mkNativeKey "B" "" 0 None ""]]).
Proof.
  intros client bds keys.
  apply (PutMulti_allocation_fails client bds 1%nat keys [None; None]
           (fun _ _ w => (None, w)) (mkState 0%nat []) []).
  - reflexivity.
  - repeat constructor; discriminate.
  - discriminate.
  - reflexivity.
Defined.

Lemma PutMulti_complete_keys_witness :
  let client := stubClient None (map Some) None [] in
  let bds := mkBDS "" "app" (Some 1%nat) in
  let keys := [mkKey "app" "" [mkKeyTok "A" 1 ""]; mkKey "other" "x" [mkKeyTok "B" 0 "b"]] in
  ∃ w, PutMulti client bds keys [None; None] (fun _ _ w => (None, w)) (mkState 0%nat [])
       = Returns None
           (mkState w
              [CallPutMulti (Some 1%nat) (gaeKeysToNative bds keys)
                 (map (mkNPLS bds) [None; None]);
               CbNewKey (Some (mkKey "app" "" [mkKeyTok "A" 1 ""])) None;
               CbNewKey (Some (mkKey "app" "" [mkKeyTok "B" 0 "b"])) None]).
Proof.
  intros client bds keys.
  destruct (PutMulti_complete_keys client bds 1%nat keys [None; None]
              (fun _ _ w => (None, w)) (mkState 0%nat []) 1%nat) as [w Hrun].
  - reflexivity.
  - repeat constructor.
  - reflexivity.
  - reflexivity.
  - exists w. exact Hrun.
Defined.

Lemma DeleteMulti_callback_rejects_witness :
  let me := [None; Some NativeErrNoSuchEntity; Some NativeErrInvalidKey] in
  let client := stubClient None (map Some) (Some (MultiError NativeMultiError me)) [] in
  let bds := mkBDS "" "app" None in
  let keys := [mkKey "app" "" [mkKeyTok "A" 1 ""]; mkKey "app" "" [mkKeyTok "A" 2 ""];
               mkKey "app" "" [mkKeyTok "A" 3 ""]] in
  ∃ w, DeleteMulti client bds keys propagate (mkState 0%nat [])
       = Returns (Some ErrNoSuchEntity)
           (mkState w [CallDeleteMulti None (gaeKeysToNative bds keys);
                       CbDeleteMulti None; CbDeleteMulti (Some ErrNoSuchEntity)]).
Proof.
  intros me client bds keys.
  destruct (DeleteMulti_callback_rejects client bds keys propagate (fun err => err)
              (mkState 0%nat []) NativeMultiError me 1%nat 1%nat
              (Some NativeErrNoSuchEntity) ErrNoSuchEntity) as [w Hrun].
  - reflexivity.
  - by intros err w.
  - reflexivity.
  - reflexivity.
  - intros [|j] e Hj He; [|lia]. by injection He as <-.
  - exists w. exact Hrun.
Defined.

Lemma RunInTransaction_bounded_witness :
  let client := stubClient (Some (BackendError 7)) (map Some) None [] in
  let bds := mkBDS "" "app" None in
  ∃ k r w,
    RunInTransaction client bds okBody (Some (mkTransactionOptions false 5))
      (mkState 0%nat [])
      = Returns r (mkState w (replicate k CallRunInTransaction)) ∧
    (1 ≤ k ≤ 5)%nat.
Proof.
  intros client bds.
  destruct (RunInTransaction_bounded client bds okBody
              (Some (mkTransactionOptions false 5)) (mkState 0%nat []))
    as (k & r & w & Hrun & Hk & _).
  - reflexivity.
  - by intros o [= <-].
  - exists k, r, w. split; [exact Hrun | exact Hk].
Defined.

Lemma Run_until_iterator_ends_witness :
  let items := take 2 fiveEntities ++ [ItError (BackendError 9); ItError NativeDone] in
  let client := iteratorClient items in
  let bds := mkBDS "" "app" None in
  let q := limitedQuery false 10 in
  ∃ s', Run client bds q (fun _ _ w => (None, w)) (mkState 0%nat [])
          = Returns (Some (BackendError 9)) s' ∧
        length (callbacks (trace s')) = 2%nat.
Proof.
  intros items client bds q.
  destruct (Run_until_iterator_ends client bds q (fun _ _ w => (None, w))
              (fun _ _ => None) (mkState 0%nat [])
              (take 2 fiveEntities) [ItError (BackendError 9); ItError NativeDone] 1%nat)
    as (s' & Hrun & Hcbs & Hlen).
  - reflexivity.
  - reflexivity.
  - by intros key pm w.
  - repeat constructor; eexists _, _; (split; [vm_compute; reflexivity | reflexivity]).
  - right. by eexists _, _.
  - exists s'. split; [exact Hrun|]. rewrite Hcbs. simpl callbacks. simpl.
    exact Hlen.
Defined.

Lemma Run_callback_halts_witness :
  let client := iteratorClient fiveEntities in
  let bds := mkBDS "" "app" None in
  let q := limitedQuery false 10 in
  ∃ w evs, Run client bds q (stopAtID 2) (mkState 0%nat [])
           = Returns None (mkState w (CallRun (prepareNativeQuery bds q) :: evs)) ∧
           length (callbacks evs) = 2%nat.
Proof.
  intros client bds q.
  destruct (Run_callback_halts client bds q (stopAtID 2) (stopAtIDVerdict 2)
              (mkState 0%nat []) (take 1 fiveEntities) (drop 2 fiveEntities)
              (ItEntity (Some (mkNativeKey "Kind" "" 2 None ""))
                        [mkNativeProperty "n" (NInt64 2) false])
              (mkKey "app" "" [mkKeyTok "Kind" 2 ""])
              (Some {[ "n" := [mkProperty (VInt 2) ShouldIndex] ]}) Stop 1%nat)
    as [w Hrun].
  - reflexivity.
  - reflexivity.
  - by intros key pm w.
  - repeat constructor. eexists _, _. split; [vm_compute; reflexivity | reflexivity].
  - vm_compute. reflexivity.
  - reflexivity.
  - eexists w, _. split; [exact Hrun|]. vm_compute. reflexivity.
Defined.
